(** * McpSqlServer: connection lifecycle and request dispatch of [src/index.ts]

    A shallow embedding of the module [src/index.ts] of the MSSQL MCP server:
    the configuration resolver [createSqlConfig], the pool manager
    [ensureSqlConnection], the patching of the tool handlers [wrapToolRun],
    and the two request handlers (tool listing and tool call).

    Conventions of the embedding.
    - JavaScript strings are [string]; the whitespace that [parseInt] skips
      is the ASCII part of the ECMAScript white space set.
    - JavaScript numbers that the module computes with are integers, kept
      as [Z]; [NaN] is [None]. A double agrees with the integer up to 2^53
      and rounds monotonically beyond, so the range check of the port is
      the same on both. The timeouts, products by 1000, are the code's as
      long as they stay within 2^53; what is proved of them is stated
      within that bound.
    - [debugLog] writes to stderr when [DEBUG] is set and does nothing
      else; it is left out.
    - Thrown values are [Error] objects (a name and a message).
    - [process.env], the arguments of a call and the table of pool objects
      are finite maps.
    - Everything outside the module (the driver's [sql.connect] and
      [close], the tool classes, [JSON.stringify] on a handler's result,
      the platform) is a field of the record [World]; the theorems
      quantify over it.
    - Asynchronous code is run to completion, one request at a time; the
      effects of a run are returned as a list of [Event]s. *)

From stdpp Require Import base strings gmap list pretty.
From Stdlib Require Import ZArith Lia Ascii.

Set Warnings "-register-all".

Local Open Scope string_scope.
Local Open Scope Z_scope.

(** ** JavaScript values the module touches *)

Module Js.

(** An [Error] object: [name] and [message]. *)
Record Error := mkError { name : string; message : string }.

(** [new Error(msg)]. *)
Definition new_Error (msg : string) : Error := mkError "Error" msg.

(** [Error.prototype.toString], used by the template literal [`${error}`]. *)
Definition toString (e : Error) : string :=
  if String.eqb (name e) "" then message e
  else if String.eqb (message e) "" then name e
  else name e +:+ ": " +:+ message e.

(** [a || b] on strings that may be [undefined]: the empty string and
    [undefined] are falsy. *)
Definition or_else (a : option string) (b : string) : string :=
  match a with
  | Some s => if String.eqb s "" then b else s
  | None => b
  end.

(** Truthiness of an optional string ([process.env.X ? _ : _]). *)
Definition truthy (a : option string) : bool :=
  match a with
  | Some s => negb (String.eqb s "")
  | None => false
  end.

(** [s?.toLowerCase()] on ASCII. *)
Definition lower_ascii (c : ascii) : ascii :=
  let n := N_of_ascii c in
  if ((65 <=? n) && (n <=? 90))%N then ascii_of_N (n + 32) else c.

Fixpoint toLowerCase (s : string) : string :=
  match s with
  | EmptyString => EmptyString
  | String c r => String (lower_ascii c) (toLowerCase r)
  end.

(** White space skipped by [parseInt]: TAB, LF, VT, FF, CR, SP. *)
Definition is_space (c : ascii) : bool :=
  let n := N_of_ascii c in
  (((9 <=? n) && (n <=? 13)) || (n =? 32))%N.

Fixpoint trim_start (s : string) : string :=
  match s with
  | String c r => if is_space c then trim_start r else s
  | EmptyString => EmptyString
  end.

Definition digit (c : ascii) : option Z :=
  let n := N_of_ascii c in
  if ((48 <=? n) && (n <=? 57))%N then Some (Z.of_N (n - 48)) else None.

(** The longest prefix of decimal digits, read left to right; [acc] is
    [None] until a digit has been seen. *)
Fixpoint digits (s : string) (acc : option Z) : option Z :=
  match s with
  | String c r =>
      match digit c with
      | Some d => digits r (Some (10 * default 0 acc + d))
      | None => acc
      end
  | EmptyString => acc
  end.

(** [parseInt(s, 10)]; [None] is [NaN]. *)
Definition parseInt (s : string) : option Z :=
  match trim_start s with
  | String "-" r => Z.opp <$> digits r None
  | String "+" r => digits r None
  | r => digits r None
  end.

(** JSON data, as the arguments of a call arrive. *)
Inductive json :=
| JNull
| JBool (b : bool)
| JNum (n : Z)
| JStr (s : string)
| JArr (items : list json)
| JObj (fields : list (string * json)).

(** [typeof v], where [None] is [undefined]. *)
Definition typeof (v : option json) : string :=
  match v with
  | None => "undefined"
  | Some (JBool _) => "boolean"
  | Some (JNum _) => "number"
  | Some (JStr _) => "string"
  | Some JNull | Some (JArr _) | Some (JObj _) => "object"
  end.

(** The outcome of evaluating something that may throw. *)
Inductive completion (A : Type) :=
| Normal (a : A)
| Throw (e : Error).
Arguments Normal {A} a.
Arguments Throw {A} e.

End Js.

Import Js.

(** ** The module's constants and configuration *)

Definition MAX_RETRY_ATTEMPTS : nat := 3.

Record SqlOptions := {
  encrypt : bool;
  trustServerCertificate : bool;
  enableArithAbort : bool;
  cryptoCredentialsDetails : option string  (* [minVersion] when present *)
}.

Record PoolOptions := {
  pool_max : Z;
  pool_min : Z;
  idleTimeoutMillis : Z;
  acquireTimeoutMillis : option Z
}.

(** [sql.config] as [createSqlConfig] builds it. A field read from an
    absent environment variable is [None] ([undefined]); a number
    computed from [NaN] is [None]. *)
Record SqlConfig := {
  server : option string;
  port : Z;
  database : option string;
  user : option string;
  password : option string;
  options : SqlOptions;
  connectionTimeout : option Z;
  requestTimeout : option Z;
  pool : PoolOptions
}.

Section Config.

(** [process.env] and [os.platform()]. *)
Variable env : gmap string string.
Variable platform : string.

(** Line 42. *)
Definition cfg_trustServerCertificate : bool :=
  match toLowerCase <$> env !! "TRUST_SERVER_CERTIFICATE" with
  | Some s => String.eqb s "true"
  | None => false
  end.

(** Line 43: [None] is [NaN]. *)
Definition cfg_connectionTimeout : option Z :=
  if truthy (env !! "CONNECTION_TIMEOUT")
  then parseInt (default "" (env !! "CONNECTION_TIMEOUT"))
  else Some 30.

(** Line 44: [None] is [NaN]. *)
Definition cfg_port : option Z :=
  if truthy (env !! "PORT")
  then parseInt (default "" (env !! "PORT"))
  else Some 1433.

(** Line 47: [isNaN(port) || port < 1 || port > 65535]. *)
Definition port_invalid (p : option Z) : bool :=
  match p with
  | None => true
  | Some n => (n <? 1) || (65535 <? n)
  end.

(** The text of [`${process.env.PORT}`]. *)
Definition show_env (v : option string) : string := default "undefined" v.

Definition port_error : Error :=
  new_Error ("Invalid port number: " +:+ show_env (env !! "PORT")
             +:+ ". Must be between 1 and 65535.").

Definition isMacOS : bool := String.eqb platform "darwin".

(** Line 56. *)
Definition adjustedTimeout : option Z :=
  if isMacOS && negb (truthy (env !! "CONNECTION_TIMEOUT"))
  then Some 60 else cfg_connectionTimeout.

(** Lines 68-93, with [port] the number that passed the check. *)
Definition sql_config (port : Z) : SqlConfig := {|
  server := env !! "SERVER_NAME";
  port := port;
  database := env !! "DATABASE_NAME";
  user := env !! "SQL_USERNAME";
  password := env !! "SQL_PASSWORD";
  options := {|
    encrypt := true;
    trustServerCertificate := if isMacOS then true else cfg_trustServerCertificate;
    enableArithAbort := true;
    cryptoCredentialsDetails := if isMacOS then Some "TLSv1.2" else None
  |};
  connectionTimeout := Z.mul 1000 <$> adjustedTimeout;
  requestTimeout := Z.mul 1000 <$> adjustedTimeout;
  pool := {|
    pool_max := 10;
    pool_min := 0;
    idleTimeoutMillis := 30000;
    acquireTimeoutMillis := Z.mul 1000 <$> adjustedTimeout
  |}
|}.

Definition createSqlConfig : completion SqlConfig :=
  match cfg_port with
  | Some port =>
      if port_invalid (Some port) then Throw port_error
      else Normal (sql_config port)
  | None => Throw port_error
  end.

End Config.

(** ** Tools, pools and the world outside the module *)

(** The eight tool objects created at lines 96-103. *)
Inductive Tool :=
| InsertData | ReadData | UpdateData | CreateTable
| CreateIndex | ListTable | DropTable | DescribeTable.

#[global] Instance Tool_eq_dec : EqDecision Tool.
Proof. solve_decision. Defined.

(** The state of a [sql.ConnectionPool] object that the module reads or
    changes: its [connected] flag and the number of ['error'] listeners
    that line 231 has registered on it. *)
Record PoolObj := {
  connected : bool;
  error_listeners : nat
}.

(** What the module consumes from outside. Pool objects are named by
    numbers. [tool_name] gives the [name] property of each tool object and
    [original_run] the outcome of a tool's own [run] method (the tool
    classes are imported, not defined, by [index.ts]). [sql_connect n c] is
    the outcome of the [n]-th call of [sql.connect] in the life of the
    process, made with configuration [c]: the pool object it resolves to,
    or the error it rejects with. [pool_close p] is the outcome of
    [p.close()]. [JSON_stringify] is [JSON.stringify(result, null, 2)] on a
    handler's result: a text, [undefined], or a thrown error. *)
Record World {Value : Type} := {
  env : gmap string string;
  platform : string;
  tool_name : Tool -> string;
  original_run : Tool -> option (gmap string json) -> completion Value;
  JSON_stringify : Value -> completion (option string);
  sql_connect : nat -> SqlConfig -> completion nat;
  pool_close : nat -> completion unit
}.
Arguments World : clear implicits.

(** The module's two globals (lines 28-29), the pool objects, and the
    number of [sql.connect] calls made so far. *)
Record State := {
  globalSqlPool : option nat;
  connectionRetryCount : nat;
  pools : gmap nat PoolObj;
  connect_calls : nat
}.

Definition set_globalSqlPool (v : option nat) (s : State) : State :=
  {| globalSqlPool := v;
     connectionRetryCount := connectionRetryCount s;
     pools := pools s;
     connect_calls := connect_calls s |}.

Definition set_connectionRetryCount (n : nat) (s : State) : State :=
  {| globalSqlPool := globalSqlPool s;
     connectionRetryCount := n;
     pools := pools s;
     connect_calls := connect_calls s |}.

Definition set_pools (m : gmap nat PoolObj) (s : State) : State :=
  {| globalSqlPool := globalSqlPool s;
     connectionRetryCount := connectionRetryCount s;
     pools := m;
     connect_calls := connect_calls s |}.

Definition count_connect_call (s : State) : State :=
  {| globalSqlPool := globalSqlPool s;
     connectionRetryCount := connectionRetryCount s;
     pools := pools s;
     connect_calls := S (connect_calls s) |}.

(** The pool object as [sql.connect] hands it over: connected, with the
    listeners it had, if it existed before. *)
Definition pool_opened (o : option PoolObj) : PoolObj :=
  {| connected := true;
     error_listeners := from_option error_listeners 0%nat o |}.

Definition pool_closed (o : PoolObj) : PoolObj :=
  {| connected := false; error_listeners := error_listeners o |}.

Definition pool_observed (o : PoolObj) : PoolObj :=
  {| connected := connected o; error_listeners := S (error_listeners o) |}.

(** [p.connected] *)
Definition pool_connected (s : State) (p : nat) : bool :=
  match pools s !! p with
  | Some o => connected o
  | None => false
  end.

(** What a run does, in order. *)
Inductive Event :=
| EvAttempt (attempt : nat)                        (* an iteration of the retry loop starts *)
| EvConnect (config : SqlConfig)                   (* [sql.connect(config)] *)
| EvListen (p : nat)                               (* [p.on('error', ...)] *)
| EvAttemptFailed (attempt : nat) (msg : string)   (* [console.error] of line 241 *)
| EvSleep (ms : Z)                                 (* the [setTimeout] wait of line 247 *)
| EvClose (p : nat)                                (* [p.close()] *)
| EvPoolError (p : nat)                            (* [console.error] of line 232 *)
| EvRun (t : Tool) (args : option (gmap string json)). (* a tool's own [run] body is entered *)

(** ** A monad for the module's effects: state, events, exceptions *)

Definition M (A : Type) : Type := State -> completion A * State * list Event.

Definition ret {A} (a : A) : M A := fun s => (Normal a, s, []).

Definition throw {A} (e : Error) : M A := fun s => (Throw e, s, []).

Definition bind {A B} (m : M A) (k : A -> M B) : M B := fun s =>
  match m s with
  | (Normal a, s1, t1) =>
      let '(r, s2, t2) := k a s1 in (r, s2, (t1 ++ t2)%list)
  | (Throw e, s1, t1) => (Throw e, s1, t1)
  end.

(** [try { m } catch (err) { h err }] *)
Definition try_catch {A} (m : M A) (h : Error -> M A) : M A := fun s =>
  match m s with
  | (Normal a, s1, t1) => (Normal a, s1, t1)
  | (Throw e, s1, t1) =>
      let '(r, s2, t2) := h e s1 in (r, s2, (t1 ++ t2)%list)
  end.

Definition get : M State := fun s => (Normal s, s, []).
Definition modify (f : State -> State) : M unit := fun s => (Normal tt, f s, []).
Definition emit (e : Event) : M unit := fun s => (Normal tt, s, [e]).
Definition lift {A} (c : completion A) : M A := fun s => (c, s, []).

Declare Scope m_scope.
Delimit Scope m_scope with M.
Notation "x <- m ;; k" := (bind m (fun x => k))
  (at level 100, m at next level, right associativity) : m_scope.
Notation "m ;; k" := (bind m (fun _ => k))
  (at level 100, right associativity) : m_scope.
Local Open Scope m_scope.

(** ** The module *)

(** The result of a tool call: [{ content: [{ type, text }], isError }].
    [text] is [None] when [JSON.stringify] gave [undefined]; an absent
    [isError] is [false]. *)
Record ContentItem := { type : string; text : option string }.
Record Envelope := { content : list ContentItem; isError : bool }.

Definition text_result (txt : option string) : Envelope :=
  {| content := [ {| type := "text"; text := txt |} ]; isError := false |}.

Definition text_error (txt : string) : Envelope :=
  {| content := [ {| type := "text"; text := Some txt |} ]; isError := true |}.

(** Line 245: [Math.min(1000 * Math.pow(2, attempt - 1), 10000)]. *)
Definition backoff_delay (attempt : nat) : Z :=
  Z.min (1000 * 2 ^ (Z.of_nat attempt - 1)) 10000.

(** Line 253. *)
Definition connect_failure (lastError : option Error) : Error :=
  new_Error ("Failed to connect after " +:+ pretty MAX_RETRY_ATTEMPTS
             +:+ " attempts. Last error: "
             +:+ or_else (message <$> lastError) "Unknown error").

Section Server.

Context {Value : Type}.
Variable w : World Value.

(** Line 118. *)
Definition isReadOnly : bool :=
  match env w !! "READONLY" with
  | Some v => String.eqb v "true"
  | None => false
  end.

(** [await sql.connect(config)]: the driver decides; a pool it resolves
    to is connected. *)
Definition connect (config : SqlConfig) : M nat := fun s =>
  match sql_connect w (connect_calls s) config with
  | Normal p =>
      (Normal p,
       set_pools (<[p := pool_opened (pools s !! p)]> (pools s)) (count_connect_call s),
       [EvConnect config])
  | Throw e => (Throw e, count_connect_call s, [EvConnect config])
  end.

(** [await p.close()]: a close that succeeds leaves the pool
    disconnected. *)
Definition close (p : nat) : M unit := fun s =>
  match pool_close w p with
  | Normal _ => (Normal tt, set_pools (alter pool_closed p (pools s)) s, [EvClose p])
  | Throw e => (Throw e, s, [EvClose p])
  end.

(** [p.on('error', (err) => { ...; globalSqlPool = null; })] *)
Definition listen (p : nat) : M unit := fun s =>
  (Normal tt, set_pools (alter pool_observed p (pools s)) s, [EvListen p]).

(** The retry loop of lines 220-250 followed by line 253. [attempt] is
    the loop variable and [remaining] the number of iterations left,
    [MAX_RETRY_ATTEMPTS + 1 - attempt]. The [return] of line 238 ends the
    function; the [catch] block falls through to the next iteration. *)
Fixpoint connect_loop (remaining attempt : nat) (lastError : option Error) : M unit :=
  match remaining with
  | O => throw (connect_failure lastError)
  | S remaining' =>
      try_catch
        (emit (EvAttempt attempt);;
         config <- lift (createSqlConfig (env w) (platform w));;
         p <- connect config;;
         modify (set_globalSqlPool (Some p));;
         modify (set_connectionRetryCount 0);;
         listen p)
        (fun err =>
           emit (EvAttemptFailed attempt (message err));;
           (if (attempt <? MAX_RETRY_ATTEMPTS)%nat
            then emit (EvSleep (backoff_delay attempt))
            else ret tt);;
           connect_loop remaining' (S attempt) (Some err))
  end.

(** Line 199: [globalSqlPool && globalSqlPool.connected]. *)
Definition pool_ready (s : State) : bool :=
  match globalSqlPool s with
  | Some p => pool_connected s p
  | None => false
  end.

(** Lines 207-215. *)
Definition close_old_pool : M unit :=
  s <- get;;
  match globalSqlPool s with
  | Some p =>
      try_catch (close p) (fun _ => ret tt);;
      modify (set_globalSqlPool None)
  | None => ret tt
  end.

Definition ensureSqlConnection : M unit :=
  s <- get;;
  if pool_ready s then ret tt
  else
    close_old_pool;;
    connect_loop MAX_RETRY_ATTEMPTS 1 None.

(** The ['error'] event of pool [p]: each listener registered at line
    231 logs and clears the global. A pool without such a listener runs
    no code of this module. *)
Definition pool_error_event (p : nat) (s : State) : State * list Event :=
  match error_listeners <$> pools s !! p with
  | Some (S n) => (set_globalSqlPool None s, replicate (S n) (EvPoolError p))
  | _ => (s, [])
  end.

(** The [run] methods of the tool objects, as a table. At load time each
    is the tool's own method. *)
Definition original_runs (t : Tool) (args : option (gmap string json)) : M Value :=
  emit (EvRun t args);;
  lift (original_run w t args).

(** Lines 257-263: replace [tool.run] by a function that awaits
    [ensureSqlConnection] and then calls the method it replaced. *)
Definition wrapToolRun (tool : Tool)
    (runs : Tool -> option (gmap string json) -> M Value)
    : Tool -> option (gmap string json) -> M Value :=
  let originalRun := runs tool in
  fun t =>
    if decide (t = tool)
    then fun args => (ensureSqlConnection;; originalRun args)
    else runs t.

(** Line 265: the [forEach] over the eight tools. *)
Definition run : Tool -> option (gmap string json) -> M Value :=
  foldl (fun runs tool => wrapToolRun tool runs) original_runs
    [InsertData; ReadData; UpdateData; CreateTable;
     CreateIndex; DropTable; ListTable; DescribeTable].

(** Lines 122-126. *)
Definition ListTools : list Tool :=
  if isReadOnly
  then [ListTable; ReadData; DescribeTable]
  else [InsertData; ReadData; DescribeTable; UpdateData;
        CreateTable; CreateIndex; DropTable; ListTable].

(** The [switch] of lines 132-168 compares [name] with the [case]
    labels in this order and takes the first that is equal. *)
Definition switch_cases : list Tool :=
  [InsertData; ReadData; UpdateData; CreateTable;
   CreateIndex; ListTable; DropTable; DescribeTable].

Definition select_case (name : string) : option Tool :=
  List.find (fun t => String.eqb name (tool_name w t)) switch_cases.

(** Line 155: [!args || typeof args.tableName !== "string"]. *)
Definition tableName_invalid (args : option (gmap string json)) : bool :=
  match args with
  | None => true
  | Some o => negb (String.eqb (typeof (o !! "tableName")) "string")
  end.

(** Lines 169-171. *)
Definition respond (result : Value) : M Envelope :=
  txt <- lift (JSON_stringify w result);;
  ret (text_result txt).

(** The body of the [try] block, lines 131-171. *)
Definition call_body (name : string) (args : option (gmap string json)) : M Envelope :=
  match select_case name with
  | Some DescribeTable =>
      if tableName_invalid args
      then ret (text_error "Missing or invalid 'tableName' argument for describe_table tool.")
      else (result <- run DescribeTable args;; respond result)
  | Some t => result <- run t args;; respond result
  | None => ret (text_error ("Unknown tool: " +:+ name))
  end.

(** The handler of [CallToolRequestSchema], lines 128-178. *)
Definition CallTool (name : string) (args : option (gmap string json))
    (s : State) : Envelope * State * list Event :=
  match call_body name args s with
  | (Normal envelope, s', tr) => (envelope, s', tr)
  | (Throw error, s', tr) =>
      (text_error ("Error occurred: " +:+ toString error), s', tr)
  end.

End Server.

(** ** What a trace contains *)

Definition is_attempt (e : Event) : bool :=
  match e with EvAttempt _ => true | _ => false end.

Definition is_connect (e : Event) : bool :=
  match e with EvConnect _ => true | _ => false end.

Definition is_run (e : Event) : bool :=
  match e with EvRun _ _ => true | _ => false end.

(** The iterations of the retry loop, and the calls of [sql.connect]. *)
Definition attempts (tr : list Event) : nat := length (filter is_attempt tr).
Definition connects (tr : list Event) : nat := length (filter is_connect tr).

(** The waits, in order. *)
Definition sleeps (tr : list Event) : list Z :=
  omap (fun e => match e with EvSleep ms => Some ms | _ => None end) tr.

(** ** Reading a run of the retry loop *)

Section Outcomes.

Context {Value : Type}.
Variable w : World Value.

(** What one iteration of the loop comes to when [n] calls of
    [sql.connect] were made before it: the pool it obtains, or the error
    its [catch] block receives (from [createSqlConfig] or from
    [sql.connect]). *)
Definition attempt_result (n : nat) : completion nat :=
  match createSqlConfig (env w) (platform w) with
  | Normal config => sql_connect w n config
  | Throw e => Throw e
  end.

(** The events of the [try] block of iteration [attempt] up to the
    outcome of [sql.connect]. *)
Definition attempt_events (attempt : nat) : list Event :=
  EvAttempt attempt ::
  match createSqlConfig (env w) (platform w) with
  | Normal config => [EvConnect config]
  | Throw _ => []
  end.

(** The state after an iteration that failed. *)
Definition after_failed_attempt (s : State) : State :=
  match createSqlConfig (env w) (platform w) with
  | Normal _ => count_connect_call s
  | Throw _ => s
  end.

(** The state after an iteration in which [sql.connect] resolved to [p]. *)
Definition after_connect (p : nat) (s : State) : State :=
  {| globalSqlPool := Some p;
     connectionRetryCount := 0;
     pools := alter pool_observed p (<[p := pool_opened (pools s !! p)]> (pools s));
     connect_calls := S (connect_calls s) |}.

(** The state after the attempt to close pool [p]. *)
Definition after_close (p : nat) (s : State) : State :=
  match pool_close w p with
  | Normal _ => set_pools (alter pool_closed p (pools s)) s
  | Throw _ => s
  end.

End Outcomes.

(** The iterations and the waits, in order. *)
Definition schedule (tr : list Event) : list (nat + Z) :=
  omap (fun e => match e with
                 | EvAttempt a => Some (inl a)
                 | EvSleep ms => Some (inr ms)
                 | _ => None
                 end) tr.

(** The failures that line 241 reports, in order: iteration and message. *)
Definition failures (tr : list Event) : list (nat * string) :=
  omap (fun e => match e with EvAttemptFailed a m => Some (a, m) | _ => None end) tr.

(** A run [(r, s', tr)] is a connection sequence started from scratch when
    [calls] calls of [sql.connect] had been made: it opens with the first
    iteration of the retry loop; if it succeeds, the pool held afterwards
    is the one that one of its (at most three) iterations obtained, and
    that pool is connected and has an error listener; if it fails, no pool
    is held. *)
Definition fresh_sequence {Value : Type} (w : World Value) (calls : nat)
    (r : completion unit) (s' : State) (tr : list Event) : Prop :=
  head tr = Some (EvAttempt 1)
  /\ match r with
     | Normal _ =>
         exists k q, (k < MAX_RETRY_ATTEMPTS)%nat
           /\ attempt_result w (calls + k) = Normal q
           /\ globalSqlPool s' = Some q
           /\ pool_connected s' q = true
           /\ (0 < from_option error_listeners 0 (pools s' !! q))%nat
     | Throw _ => globalSqlPool s' = None
     end.

(** Put an event in front of the trace of a run. *)
Definition preceded_by {A} (e : Event) (r : completion A * State * list Event)
    : completion A * State * list Event :=
  let '(c, s, tr) := r in (c, s, e :: tr).

(** ** A concrete world, for examples *)

Module Demo.

Definition names (t : Tool) : string :=
  match t with
  | InsertData => "insert_data"
  | ReadData => "read_data"
  | UpdateData => "update_data"
  | CreateTable => "create_table"
  | CreateIndex => "create_index"
  | ListTable => "list_table"
  | DropTable => "drop_table"
  | DescribeTable => "describe_table"
  end.

(** A driver that refuses the first [k] connections and then hands out
    pool 7. *)
Definition refuse_first (k : nat) (n : nat) (c : SqlConfig) : completion nat :=
  if (n <? k)%nat then Throw (mkError "ConnectionError" "ECONNREFUSED")
  else Normal 7%nat.

(** Handlers answer with a row count, and throw when called without
    arguments; [JSON.stringify] prints the count. *)
Definition handler (t : Tool) (args : option (gmap string json)) : completion Z :=
  match args with
  | Some _ => Normal 1
  | None =>
      Throw (mkError "TypeError" "Cannot destructure property 'tableName' of 'params' as it is undefined.")
  end.

Definition world (e : gmap string string) (k : nat) : World Z := {|
  env := e;
  platform := "linux";
  tool_name := names;
  original_run := handler;
  JSON_stringify := fun v => Normal (Some (pretty v));
  sql_connect := refuse_first k;
  pool_close := fun _ => Throw (new_Error "close failed")
|}.

Definition full_env : gmap string string :=
  {[ "SERVER_NAME" := "db.example.net"; "DATABASE_NAME" := "shop";
     "SQL_USERNAME" := "app"; "SQL_PASSWORD" := "secret"; "PORT" := "1433" ]}.

Definition readonly_env : gmap string string := <["READONLY" := "true"]> full_env.

Definition bad_port_env : gmap string string := <["PORT" := "70000"]> full_env.

(** No pool yet. *)
Definition fresh : State :=
  {| globalSqlPool := None; connectionRetryCount := 0; pools := ∅; connect_calls := 0 |}.

(** Pool 4 held and connected. *)
Definition ready : State :=
  {| globalSqlPool := Some 4%nat; connectionRetryCount := 0;
     pools := {[ 4%nat := {| connected := true; error_listeners := 1 |} ]};
     connect_calls := 1 |}.

(** Pool 4 held, no longer connected. *)
Definition stale : State :=
  {| globalSqlPool := Some 4%nat; connectionRetryCount := 0;
     pools := {[ 4%nat := {| connected := false; error_listeners := 1 |} ]};
     connect_calls := 1 |}.

Definition insert_args : option (gmap string json) :=
  Some {[ "tableName" := JStr "orders"; "data" := JObj [("id", JNum 1)] ]}.

End Demo.

(** ** Further readings of strings, traces and states *)

(** Every character of [ws] is one that [parseInt] skips. *)
Fixpoint all_space (ws : string) : bool :=
  match ws with
  | EmptyString => true
  | String c r => is_space c && all_space r
  end.

(** [junk] is empty or starts with a character that is not a decimal digit. *)
Definition no_leading_digit (junk : string) : bool :=
  match junk with
  | EmptyString => true
  | String c _ => match digit c with Some _ => false | None => true end
  end.

Definition is_close (e : Event) : bool :=
  match e with EvClose _ => true | _ => false end.

(** The calls of [close], the handler bodies entered, and the time waited. *)
Definition closes (tr : list Event) : nat := length (filter is_close tr).
Definition runs (tr : list Event) : nat := length (filter is_run tr).
Definition waited (tr : list Event) : Z := foldr Z.add 0 (sleeps tr).

(** The number of error listeners on pool [p]; none if there is no such
    object. *)
Definition listeners (s : State) (p : nat) : nat :=
  from_option error_listeners 0%nat (pools s !! p).

(** Lines 28-29: the state in which the module is loaded. *)
Definition initial : State :=
  {| globalSqlPool := None; connectionRetryCount := 0; pools := ∅; connect_calls := 0 |}.

(** The driver sets the [connected] flag of a pool object. *)
Definition pool_flag (b : bool) (o : PoolObj) : PoolObj :=
  {| connected := b; error_listeners := error_listeners o |}.

(** What can happen to the state of a running process: a tool call is
    handled, a pool emits ['error'], or the driver changes the [connected]
    flag of a pool. (Listing the tools touches no state.) *)
Inductive step {Value : Type} (w : World Value) : State -> State -> Prop :=
| step_call name args s :
    step w s (CallTool w name args s).1.2
| step_pool_error p s :
    step w s (pool_error_event p s).1
| step_driver p b s :
    step w s (set_pools (alter (pool_flag b) p (pools s)) s).

Definition reachable {Value : Type} (w : World Value) (s : State) : Prop :=
  rtc (step w) initial s.

(** What [ensureSqlConnection] does before the retry loop when the pool
    is not ready (lines 207-215): the state it leaves and its events. *)
Definition cleared {Value : Type} (w : World Value) (s : State) : State * list Event :=
  match globalSqlPool s with
  | Some p => (set_globalSqlPool None (after_close w p s), [EvClose p])
  | None => (s, [])
  end.

(** A second concrete world: the driver hands out a new pool object, pool
    [n], at its [n]-th call; [close] succeeds. *)
Module Fleet.

Definition world : World Z := {|
  env := Demo.full_env;
  platform := "linux";
  tool_name := Demo.names;
  original_run := Demo.handler;
  JSON_stringify := fun v => Normal (Some (pretty v));
  sql_connect := fun n _ => Normal n;
  pool_close := fun _ => Normal tt
|}.

(** After a first call (pool 0), a drop of pool 0 and a second call
    (pool 1): pool 1 is held and connected; pool 0 is closed and still
    carries its listener. *)
Definition reconnected : State :=
  let s1 := (CallTool world "list_table" None initial).1.2 in
  let s2 := set_pools (alter (pool_flag false) 0%nat (pools s1)) s1 in
  (CallTool world "list_table" None s2).1.2.

End Fleet.

(** What the module keeps true of its state: the retry counter is zero,
    and a pool that is held carries an error listener. *)
Definition consistent (s : State) : Prop :=
  connectionRetryCount s = 0%nat
  /\ forall p, globalSqlPool s = Some p -> (0 < listeners s p)%nat.

(** Every character of [v] is an ASCII character. *)
Fixpoint all_ascii (v : string) : bool :=
  match v with
  | EmptyString => true
  | String c r => (N_of_ascii c <? 128)%N && all_ascii r
  end.


(** A third concrete world: the driver keeps one pool object, pool 4, and
    resolves every [sql.connect] to it; [close] succeeds. *)
Module Single.

Definition world : World Z := {|
  env := Demo.full_env;
  platform := "linux";
  tool_name := Demo.names;
  original_run := Demo.handler;
  JSON_stringify := fun v => Normal (Some (pretty v));
  sql_connect := fun _ _ => Normal 4%nat;
  pool_close := fun _ => Normal tt
|}.

End Single.

(** * Properties *)

(** ** [parseInt] and the configuration *)

Example parseInt_1433 : parseInt "1433" = Some 1433.
Proof. reflexivity. Qed.

Example parseInt_prefix :
  parseInt " +80abc" = Some 80 /\ parseInt "abc" = None /\ parseInt "-7" = Some (-7).
Proof. repeat split. Qed.

Example pretty_MAX_RETRY_ATTEMPTS : pretty MAX_RETRY_ATTEMPTS = "3".
Proof. reflexivity. Qed.

Example backoff_delays :
  backoff_delay 1 = 1000 /\ backoff_delay 2 = 2000 /\ backoff_delay 3 = 4000
  /\ backoff_delay 5 = 10000.
Proof. repeat split. Qed.

Lemma createSqlConfig_invalid env platform :
  port_invalid (cfg_port env) = true ->
  createSqlConfig env platform = Throw (port_error env).
Proof.
  unfold createSqlConfig. destruct (cfg_port env) as [n|]; [|reflexivity].
  by intros ->.
Qed.

Lemma createSqlConfig_valid env platform n :
  cfg_port env = Some n -> port_invalid (Some n) = false ->
  createSqlConfig env platform = Normal (sql_config env platform n).
Proof. unfold createSqlConfig. by intros -> ->. Qed.

(** *** Decimal numerals are read back by [parseInt] *)

Lemma digit_pretty_N_char (m : N) :
  (m < 10)%N -> digit (pretty_N_char m) = Some (Z.of_N m).
Proof.
  intros H.
  assert (m = 0 \/ m = 1 \/ m = 2 \/ m = 3 \/ m = 4 \/ m = 5 \/ m = 6
          \/ m = 7 \/ m = 8 \/ m = 9)%N as Hm by lia.
  repeat (destruct Hm as [->|Hm]; [reflexivity|]). by subst.
Qed.

Lemma parseInt_digit_head (m : N) (r : string) :
  (m < 10)%N ->
  parseInt (String (pretty_N_char m) r) = digits (String (pretty_N_char m) r) None.
Proof.
  intros H.
  assert (m = 0 \/ m = 1 \/ m = 2 \/ m = 3 \/ m = 4 \/ m = 5 \/ m = 6
          \/ m = 7 \/ m = 8 \/ m = 9)%N as Hm by lia.
  repeat (destruct Hm as [->|Hm]; [reflexivity|]). by subst.
Qed.

Lemma div_mod_10 (x : N) : Z.of_N x = 10 * Z.of_N (x `div` 10) + Z.of_N (x `mod` 10).
Proof.
  assert (x = 10 * (x `div` 10) + x `mod` 10)%N as H by (apply N.div_mod; lia).
  revert H. generalize (x `div` 10)%N (x `mod` 10)%N. lia.
Qed.

(** Reading the digits that [pretty_N_go x] puts in front of [s]. *)
Lemma digits_pretty_N_go (x : N) : forall s,
  (0 < x)%N -> digits (pretty_N_go x s) None = digits s (Some (Z.of_N x)).
Proof.
  induction (N.lt_wf_0 x) as [x _ IH]; intros s Hx.
  rewrite pretty_N_go_step by done.
  assert (Hd : digit (pretty_N_char (x `mod` 10)) = Some (Z.of_N (x `mod` 10))).
  { apply digit_pretty_N_char, N.mod_lt. lia. }
  destruct (decide (x `div` 10 = 0)%N) as [H0|H0].
  - rewrite H0, pretty_N_go_0. cbn [digits]. rewrite Hd. cbn [default].
    do 2 f_equal. rewrite (div_mod_10 x), H0. lia.
  - rewrite IH; [|apply N.div_lt; lia|by apply N.neq_0_lt_0].
    cbn [digits]. rewrite Hd. cbn [default]. do 2 f_equal.
    symmetry. apply div_mod_10.
Qed.

Lemma pretty_N_go_head (x : N) : forall s,
  (0 < x)%N ->
  exists m r, (m < 10)%N /\ pretty_N_go x s = String (pretty_N_char m) r.
Proof.
  induction (N.lt_wf_0 x) as [x _ IH]; intros s Hx.
  rewrite pretty_N_go_step by done.
  destruct (decide (x `div` 10 = 0)%N) as [H0|H0].
  - rewrite H0, pretty_N_go_0. exists (x `mod` 10)%N, s.
    split; [apply N.mod_lt; lia|reflexivity].
  - apply IH; [apply N.div_lt; lia|by apply N.neq_0_lt_0].
Qed.

Lemma parseInt_pretty_N (x : N) : parseInt (pretty x) = Some (Z.of_N x).
Proof.
  unfold pretty, pretty_N. case_decide as H0; [by subst|].
  destruct (pretty_N_go_head x "") as (m & r & Hm & E); [lia|].
  rewrite E, (parseInt_digit_head m r Hm), <- E.
  rewrite digits_pretty_N_go by lia. reflexivity.
Qed.

Lemma parseInt_pretty (n : Z) : parseInt (pretty n) = Some n.
Proof.
  destruct n as [|q|q].
  - reflexivity.
  - apply (parseInt_pretty_N (Npos q)).
  - change (pretty (Zneg q)) with (String "-" (pretty (Npos q))).
    change (parseInt (String "-" (pretty (Npos q))))
      with (Z.opp <$> digits (pretty (Npos q)) None).
    unfold pretty, pretty_N. case_decide as H0; [discriminate|].
    rewrite digits_pretty_N_go by lia. reflexivity.
Qed.



Lemma port_invalid_range (n : Z) :
  port_invalid (Some n) = false <-> 1 <= n <= 65535.
Proof. unfold port_invalid. rewrite orb_false_iff, !Z.ltb_ge. lia. Qed.


(** C2, as the code has it. [createSqlConfig] never looks whether
    [SERVER_NAME], [DATABASE_NAME], [SQL_USERNAME] or [SQL_PASSWORD] are
    set: with a valid port it returns a configuration that carries the four
    values as the environment has them, [undefined] for an absent one; and
    the only error it ever throws is the port error. *)
Theorem required_fields_are_passed_through (env : gmap string string) (platform : string) :
  (port_invalid (cfg_port env) = false ->
     exists cfg, createSqlConfig env platform = Normal cfg
       /\ server cfg = env !! "SERVER_NAME"
       /\ database cfg = env !! "DATABASE_NAME"
       /\ user cfg = env !! "SQL_USERNAME"
       /\ password cfg = env !! "SQL_PASSWORD")
  /\ (forall e, createSqlConfig env platform = Throw e ->
        port_invalid (cfg_port env) = true /\ e = port_error env).
Proof.
  unfold createSqlConfig. destruct (cfg_port env) as [n|]; simpl.
  - destruct ((n <? 1) || (65535 <? n)); split; try done.
    + by intros e [= <-].
    + intros _. by eexists.
  - split; [done|]. by intros e [= <-].
Qed.

(** C2, the claim as written fails: in an empty environment, where host,
    database, user name and password are all absent, [createSqlConfig]
    returns a configuration (with the four fields undefined). *)
Lemma missing_required_fields_accepted :
  let env : gmap string string := ∅ in
  env !! "SERVER_NAME" = None /\ env !! "DATABASE_NAME" = None
  /\ env !! "SQL_USERNAME" = None /\ env !! "SQL_PASSWORD" = None
  /\ createSqlConfig env "linux" = Normal (sql_config env "linux" 1433)
  /\ server (sql_config env "linux" 1433) = None
  /\ ~ exists e, createSqlConfig env "linux" = Throw e.
Proof.
  repeat split. intros [e H]. discriminate H.
Qed.

Lemma append_assoc (a b c : string) : (a +:+ b) +:+ c = a +:+ b +:+ c.
Proof.
  induction a as [|x a IH]; [reflexivity|].
  change (String x ((a +:+ b) +:+ c) = String x (a +:+ b +:+ c)). by f_equal.
Qed.



(** ** Traces *)

Lemma attempts_app (a b : list Event) : attempts (a ++ b) = (attempts a + attempts b)%nat.
Proof. unfold attempts. by rewrite filter_app, length_app. Qed.

Lemma connects_app (a b : list Event) : connects (a ++ b) = (connects a + connects b)%nat.
Proof. unfold connects. by rewrite filter_app, length_app. Qed.

Lemma sleeps_app (a b : list Event) : sleeps (a ++ b) = (sleeps a ++ sleeps b)%list.
Proof. unfold sleeps. apply omap_app. Qed.

Lemma schedule_app (a b : list Event) :
  schedule (a ++ b) = (schedule a ++ schedule b)%list.
Proof. unfold schedule. apply omap_app. Qed.

Lemma schedule_cons e (l : list Event) :
  schedule (e :: l)
  = (match e with
     | EvAttempt a => [inl a]
     | EvSleep ms => [inr ms]
     | _ => []
     end ++ schedule l)%list.
Proof. by destruct e. Qed.

Lemma attempts_nil : attempts [] = 0%nat.
Proof. reflexivity. Qed.

Lemma connects_nil : connects [] = 0%nat.
Proof. reflexivity. Qed.

Lemma attempts_cons e (l : list Event) :
  attempts (e :: l) = ((if is_attempt e then 1 else 0) + attempts l)%nat.
Proof. by destruct e. Qed.

Lemma connects_cons e (l : list Event) :
  connects (e :: l) = ((if is_connect e then 1 else 0) + connects l)%nat.
Proof. by destruct e. Qed.

Lemma sleeps_cons e (l : list Event) :
  sleeps (e :: l)
  = (match e with EvSleep ms => [ms] | _ => [] end ++ sleeps l)%list.
Proof. by destruct e. Qed.

(** ** The retry loop *)

Ltac run_m :=
  unfold try_catch, bind, ret, throw, get, modify, emit, lift; simpl.

Section Lifecycle.

Context {Value : Type}.
Variable w : World Value.

Lemma connect_loop_resolves remaining attempt last s p :
  attempt_result w (connect_calls s) = Normal p ->
  connect_loop w (S remaining) attempt last s =
    (Normal tt, after_connect p s, (attempt_events w attempt ++ [EvListen p])%list).
Proof.
  unfold attempt_result, attempt_events; intros H; simpl; run_m.
  destruct (createSqlConfig (env w) (platform w)) as [config|e]; [|discriminate].
  unfold connect, listen; simpl. rewrite H. reflexivity.
Qed.

Lemma connect_loop_rejects remaining attempt last s e :
  attempt_result w (connect_calls s) = Throw e ->
  connect_loop w (S remaining) attempt last s =
    let '(r, s', tr) :=
      connect_loop w remaining (S attempt) (Some e) (after_failed_attempt w s) in
    (r, s',
     (attempt_events w attempt ++ EvAttemptFailed attempt (message e)
        :: (if (attempt <? MAX_RETRY_ATTEMPTS)%nat
            then [EvSleep (backoff_delay attempt)] else []) ++ tr)%list).
Proof.
  unfold attempt_result, attempt_events, after_failed_attempt; intros H.
  cbn [connect_loop]; run_m.
  destruct (createSqlConfig (env w) (platform w)) as [config|e0].
  - unfold connect; simpl. rewrite H.
    destruct (attempt <? MAX_RETRY_ATTEMPTS)%nat; simpl;
      destruct (connect_loop w remaining (S attempt) (Some e) (count_connect_call s))
        as [[r s'] tr]; reflexivity.
  - injection H as ->.
    destruct (attempt <? MAX_RETRY_ATTEMPTS)%nat; simpl;
      destruct (connect_loop w remaining (S attempt) (Some e) s)
        as [[r s'] tr]; reflexivity.
Qed.

Lemma attempt_result_next s :
  attempt_result w (connect_calls (after_failed_attempt w s))
  = attempt_result w (S (connect_calls s)).
Proof.
  unfold attempt_result, after_failed_attempt.
  destruct (createSqlConfig (env w) (platform w)); reflexivity.
Qed.

Lemma after_failed_attempt_pool s :
  globalSqlPool (after_failed_attempt w s) = globalSqlPool s.
Proof.
  unfold after_failed_attempt.
  destruct (createSqlConfig (env w) (platform w)); reflexivity.
Qed.

Lemma attempts_attempt_events a : attempts (attempt_events w a) = 1%nat.
Proof.
  unfold attempt_events.
  destruct (createSqlConfig (env w) (platform w)); reflexivity.
Qed.

Lemma sleeps_attempt_events a : sleeps (attempt_events w a) = [].
Proof.
  unfold attempt_events.
  destruct (createSqlConfig (env w) (platform w)); reflexivity.
Qed.

Lemma schedule_attempt_events a : schedule (attempt_events w a) = [inl a].
Proof.
  unfold attempt_events.
  destruct (createSqlConfig (env w) (platform w)); reflexivity.
Qed.

Lemma connects_attempt_events a :
  connects (attempt_events w a)
  = match createSqlConfig (env w) (platform w) with
    | Normal _ => 1%nat
    | Throw _ => 0%nat
    end.
Proof.
  unfold attempt_events.
  destruct (createSqlConfig (env w) (platform w)); reflexivity.
Qed.

End Lifecycle.

Ltac read_trace :=
  repeat first
    [ rewrite attempts_app | rewrite attempts_cons | rewrite attempts_attempt_events
    | rewrite sleeps_app | rewrite sleeps_cons | rewrite sleeps_attempt_events
    | rewrite connects_app | rewrite connects_cons | rewrite connects_attempt_events
    | rewrite schedule_app | rewrite schedule_cons | rewrite schedule_attempt_events
    | rewrite attempts_nil | rewrite connects_nil ];
  simpl.

(** ** The connection sequence, case by case *)

Section Sequence.

Context {Value : Type}.
Variable w : World Value.
Variable s : State.

(** The three hypotheses of each lemma are the outcomes of the first,
    second and third iteration. *)

Lemma sequence_first p last :
  attempt_result w (connect_calls s) = Normal p ->
  connect_loop w MAX_RETRY_ATTEMPTS 1 last s =
    (Normal tt, after_connect p s, (attempt_events w 1 ++ [EvListen p])%list).
Proof. intros H. by apply connect_loop_resolves. Qed.

Lemma sequence_second e1 p last :
  attempt_result w (connect_calls s) = Throw e1 -> attempt_result w (S (connect_calls s)) = Normal p ->
  connect_loop w MAX_RETRY_ATTEMPTS 1 last s =
    (Normal tt, after_connect p (after_failed_attempt w s),
     (attempt_events w 1 ++ EvAttemptFailed 1 (message e1) :: EvSleep 1000
        :: attempt_events w 2 ++ [EvListen p])%list).
Proof.
  intros H1 H2. unfold MAX_RETRY_ATTEMPTS.
  rewrite (connect_loop_rejects w _ _ _ _ e1 H1).
  rewrite (connect_loop_resolves w _ _ _ _ p); [reflexivity|].
  by rewrite attempt_result_next.
Qed.

Lemma sequence_third e1 e2 p last :
  attempt_result w (connect_calls s) = Throw e1 -> attempt_result w (S (connect_calls s)) = Throw e2 -> attempt_result w (S (S (connect_calls s))) = Normal p ->
  connect_loop w MAX_RETRY_ATTEMPTS 1 last s =
    (Normal tt, after_connect p (after_failed_attempt w (after_failed_attempt w s)),
     (attempt_events w 1 ++ EvAttemptFailed 1 (message e1) :: EvSleep 1000
        :: attempt_events w 2 ++ EvAttemptFailed 2 (message e2) :: EvSleep 2000
        :: attempt_events w 3 ++ [EvListen p])%list).
Proof.
  intros H1 H2 H3. unfold MAX_RETRY_ATTEMPTS.
  rewrite (connect_loop_rejects w _ _ _ _ e1 H1).
  rewrite (connect_loop_rejects w _ _ _ _ e2); [|by rewrite attempt_result_next].
  rewrite (connect_loop_resolves w _ _ _ _ p); [reflexivity|].
  rewrite attempt_result_next.
  unfold attempt_result, after_failed_attempt in *.
  destruct (createSqlConfig (env w) (platform w)); [exact H3|discriminate].
Qed.

Lemma sequence_exhausted e1 e2 e3 last :
  attempt_result w (connect_calls s) = Throw e1 -> attempt_result w (S (connect_calls s)) = Throw e2 -> attempt_result w (S (S (connect_calls s))) = Throw e3 ->
  connect_loop w MAX_RETRY_ATTEMPTS 1 last s =
    (Throw (connect_failure (Some e3)),
     after_failed_attempt w (after_failed_attempt w (after_failed_attempt w s)),
     (attempt_events w 1 ++ EvAttemptFailed 1 (message e1) :: EvSleep 1000
        :: attempt_events w 2 ++ EvAttemptFailed 2 (message e2) :: EvSleep 2000
        :: attempt_events w 3 ++ [EvAttemptFailed 3 (message e3)])%list).
Proof.
  intros H1 H2 H3. unfold MAX_RETRY_ATTEMPTS.
  rewrite (connect_loop_rejects w _ _ _ _ e1 H1).
  rewrite (connect_loop_rejects w _ _ _ _ e2); [|by rewrite attempt_result_next].
  rewrite (connect_loop_rejects w _ _ _ _ e3); [reflexivity|].
  rewrite attempt_result_next.
  unfold attempt_result, after_failed_attempt in *.
  destruct (createSqlConfig (env w) (platform w)); exact H3.
Qed.

End Sequence.

(** ** [ensureSqlConnection] *)

Section Ensure.

Context {Value : Type}.
Variable w : World Value.

Lemma ensure_absent s :
  globalSqlPool s = None ->
  ensureSqlConnection w s = connect_loop w MAX_RETRY_ATTEMPTS 1 None s.
Proof.
  intros H. destruct s as [g c ps n]; simpl in H; subst g.
  unfold ensureSqlConnection, close_old_pool, pool_ready.
  unfold bind, get, ret; cbn -[connect_loop MAX_RETRY_ATTEMPTS].
  match goal with
  | |- context [connect_loop w ?k ?a ?l ?st] =>
      destruct (connect_loop w k a l st) as [[r s'] tr]
  end; reflexivity.
Qed.

Lemma ensure_stale s p :
  globalSqlPool s = Some p -> pool_connected s p = false ->
  ensureSqlConnection w s =
    preceded_by (EvClose p)
      (ensureSqlConnection w (set_globalSqlPool None (after_close w p s))).
Proof.
  intros H Hc. rewrite (ensure_absent (set_globalSqlPool None _)) by reflexivity.
  destruct s as [g c ps n]; simpl in H; subst g.
  unfold ensureSqlConnection, close_old_pool, pool_ready, after_close, close.
  unfold bind, try_catch, get, ret, modify.
  cbn -[connect_loop MAX_RETRY_ATTEMPTS pool_connected]. rewrite Hc.
  cbn -[connect_loop MAX_RETRY_ATTEMPTS].
  destruct (pool_close w p) as [[]|e];
    cbn -[connect_loop MAX_RETRY_ATTEMPTS];
    match goal with
    | |- context [connect_loop w ?k ?a ?l ?st] =>
        destruct (connect_loop w k a l st) as [[r s'] tr]
    end; reflexivity.
Qed.

Lemma ensure_ready s :
  pool_ready s = true ->
  ensureSqlConnection w s = (Normal tt, s, []).
Proof.
  intros H. unfold ensureSqlConnection, bind, get, ret.
  cbn -[connect_loop MAX_RETRY_ATTEMPTS pool_ready]. by rewrite H.
Qed.

End Ensure.

Section EnsureClaims.

Context {Value : Type}.
Variable w : World Value.

(** C8. When the pool held reports itself connected, [ensureSqlConnection]
    returns at once: no event at all (no loop iteration, no call of
    [sql.connect], no close, no wait) and the state as it was. Nothing of
    the world is consulted: the answer is the same in every world. *)
Theorem ensure_ready_is_immediate s :
  pool_ready s = true ->
  ensureSqlConnection w s = (Normal tt, s, [])
  /\ attempts (ensureSqlConnection w s).2 = 0%nat
  /\ connects (ensureSqlConnection w s).2 = 0%nat
  /\ forall w' : World Value, ensureSqlConnection w' s = ensureSqlConnection w s.
Proof.
  intros H. rewrite (ensure_ready w s H). repeat split.
  intros w'. apply ensure_ready, H.
Qed.

(** C4. Entered with no pool held, [ensureSqlConnection] makes at least
    one and at most three attempts, numbered 1, 2, 3; between two
    consecutive attempts it waits [backoff_delay] of the attempt that
    failed, 1000 ms after the first and 2000 ms after the second; it fails
    exactly when the three attempts fail, then with the error of line 253,
    whose message ends with the message of the third failure (or with
    ['Unknown error'] when that message is empty), after three attempts
    and both waits, and with no pool held. *)
Theorem ensure_absent_pool_retries s :
  globalSqlPool s = None ->
  let '(r, s', tr) := ensureSqlConnection w s in
  (1 <= attempts tr <= 3)%nat
  /\ schedule tr
     = take (2 * attempts tr - 1)
         [inl 1%nat; inr (backoff_delay 1); inl 2%nat; inr (backoff_delay 2); inl 3%nat]
  /\ sleeps tr = take (attempts tr - 1) [1000; 2000]
  /\ (forall e, r = Throw e <->
        exists e1 e2 e3,
          attempt_result w (connect_calls s) = Throw e1
          /\ attempt_result w (S (connect_calls s)) = Throw e2
          /\ attempt_result w (S (S (connect_calls s))) = Throw e3
          /\ e = new_Error ("Failed to connect after 3 attempts. Last error: "
                            +:+ or_else (Some (message e3)) "Unknown error"))
  /\ (forall e, r = Throw e ->
        attempts tr = 3%nat /\ sleeps tr = [1000; 2000]
        /\ globalSqlPool s' = None).
Proof.
  intros H. rewrite (ensure_absent w s H).
  destruct (attempt_result w (connect_calls s)) as [p|e1] eqn:H1.
  { rewrite (sequence_first w s p None H1). read_trace.
    split; [lia|]. split; [reflexivity|]. split; [reflexivity|]. split; [|discriminate].
    intros e; split; [discriminate|].
    intros (? & ? & ? & ? & _); congruence. }
  destruct (attempt_result w (S (connect_calls s))) as [p|e2] eqn:H2.
  { rewrite (sequence_second w s e1 p None H1 H2). read_trace.
    split; [lia|]. split; [reflexivity|]. split; [reflexivity|]. split; [|discriminate].
    intros e; split; [discriminate|].
    intros (? & ? & ? & _ & ? & _); congruence. }
  destruct (attempt_result w (S (S (connect_calls s)))) as [p|e3] eqn:H3.
  { rewrite (sequence_third w s e1 e2 p None H1 H2 H3). read_trace.
    split; [lia|]. split; [reflexivity|]. split; [reflexivity|]. split; [|discriminate].
    intros e; split; [discriminate|].
    intros (? & ? & ? & _ & _ & ? & _); congruence. }
  rewrite (sequence_exhausted w s e1 e2 e3 None H1 H2 H3). read_trace.
  split; [lia|]. split; [reflexivity|]. split; [reflexivity|]. split.
  - intros e; split.
    + intros [= <-]. by exists e1, e2, e3.
    + intros (? & ? & e3' & _ & _ & [= <-] & ->). reflexivity.
  - intros e _. by rewrite !after_failed_attempt_pool.
Qed.

Lemma attempt_result_invalid_port n :
  port_invalid (cfg_port (env w)) = true ->
  attempt_result w n = Throw (port_error (env w)).
Proof.
  intros H. unfold attempt_result.
  by rewrite (createSqlConfig_invalid _ (platform w) H).
Qed.

Lemma after_connect_connected p s : pool_connected (after_connect p s) p = true.
Proof.
  unfold pool_connected, after_connect; simpl.
  rewrite lookup_alter_eq, lookup_insert_eq. reflexivity.
Qed.

Lemma after_connect_observed p s :
  (0 < from_option error_listeners 0 (pools (after_connect p s) !! p))%nat.
Proof.
  unfold after_connect; simpl.
  rewrite lookup_alter_eq, lookup_insert_eq. simpl. lia.
Qed.

Lemma ensure_absent_fresh s :
  globalSqlPool s = None ->
  let '(r, s', tr) := ensureSqlConnection w s in
  fresh_sequence w (connect_calls s) r s' tr.
Proof.
  intros H. rewrite (ensure_absent w s H). unfold fresh_sequence.
  destruct (attempt_result w (connect_calls s)) as [p|e1] eqn:H1.
  { rewrite (sequence_first w s p None H1). split; [reflexivity|].
    exists 0%nat, p. rewrite Nat.add_0_r.
    by repeat split;
      [unfold MAX_RETRY_ATTEMPTS; lia | | apply after_connect_connected
      | apply after_connect_observed]. }
  destruct (attempt_result w (S (connect_calls s))) as [p|e2] eqn:H2.
  { rewrite (sequence_second w s e1 p None H1 H2). split; [reflexivity|].
    exists 1%nat, p. rewrite Nat.add_1_r.
    by repeat split;
      [unfold MAX_RETRY_ATTEMPTS; lia | | apply after_connect_connected
      | apply after_connect_observed]. }
  destruct (attempt_result w (S (S (connect_calls s)))) as [p|e3] eqn:H3.
  { rewrite (sequence_third w s e1 e2 p None H1 H2 H3). split; [reflexivity|].
    exists 2%nat, p. replace (connect_calls s + 2)%nat with (S (S (connect_calls s))) by lia.
    by repeat split;
      [unfold MAX_RETRY_ATTEMPTS; lia | | apply after_connect_connected
      | apply after_connect_observed]. }
  rewrite (sequence_exhausted w s e1 e2 e3 None H1 H2 H3). split; [reflexivity|].
  by rewrite !after_failed_attempt_pool.
Qed.

(** C10. With an invalid [PORT] and no connected pool held,
    [ensureSqlConnection] goes through its three iterations, each failing
    in [createSqlConfig] with the port error (so [sql.connect] is never
    called), waits 1000 ms and 2000 ms between them, and throws the error
    of line 253 whose message ends with the text of the port error; what
    it throws is not the port error itself. No pool is held afterwards. *)
Theorem invalid_port_reported_after_retries s :
  port_invalid (cfg_port (env w)) = true ->
  pool_ready s = false ->
  let '(r, s', tr) := ensureSqlConnection w s in
  r = Throw (new_Error ("Failed to connect after 3 attempts. Last error: "
                        +:+ message (port_error (env w))))
  /\ r <> Throw (port_error (env w))
  /\ attempts tr = 3%nat
  /\ failures tr = [ (1%nat, message (port_error (env w)));
                     (2%nat, message (port_error (env w)));
                     (3%nat, message (port_error (env w))) ]
  /\ sleeps tr = [1000; 2000]
  /\ connects tr = 0%nat
  /\ globalSqlPool s' = None.
Proof.
  intros Hport Hready.
  assert (Habsent : forall s0, globalSqlPool s0 = None ->
    ensureSqlConnection w s0 =
      (Throw (connect_failure (Some (port_error (env w)))), s0,
       [ EvAttempt 1; EvAttemptFailed 1 (message (port_error (env w))); EvSleep 1000;
         EvAttempt 2; EvAttemptFailed 2 (message (port_error (env w))); EvSleep 2000;
         EvAttempt 3; EvAttemptFailed 3 (message (port_error (env w))) ])).
  { intros s0 H0. rewrite (ensure_absent w s0 H0).
    rewrite (sequence_exhausted w s0 _ _ _ None
               (attempt_result_invalid_port _ Hport)
               (attempt_result_invalid_port _ Hport)
               (attempt_result_invalid_port _ Hport)).
    unfold after_failed_attempt, attempt_events.
    by rewrite (createSqlConfig_invalid _ (platform w) Hport). }
  destruct (globalSqlPool s) as [p|] eqn:Hpool.
  - assert (Hc : pool_connected s p = false).
    { unfold pool_ready in Hready. by rewrite Hpool in Hready. }
    rewrite (ensure_stale w s p Hpool Hc), Habsent by reflexivity.
    simpl. by repeat split.
  - rewrite (Habsent s Hpool). by repeat split.
Qed.




End EnsureClaims.

(** ** The patched handlers and the dispatcher *)

Section Dispatch.

Context {Value : Type}.
Variable w : World Value.

(** After line 265 every [run] awaits [ensureSqlConnection] and then
    calls the method it replaced. *)
Lemma run_wrapped t args :
  run w t args = (ensureSqlConnection w;; original_runs w t args).
Proof. by destruct t. Qed.

Lemma run_unfold t args s :
  run w t args s =
    match ensureSqlConnection w s with
    | (Normal _, s1, tr1) => (original_run w t args, s1, (tr1 ++ [EvRun t args])%list)
    | (Throw e, s1, tr1) => (Throw e, s1, tr1)
    end.
Proof.
  rewrite run_wrapped. unfold bind, original_runs, emit, lift.
  destruct (ensureSqlConnection w s) as [[[[]|e] s1] tr1]; reflexivity.
Qed.

(** The retry loop never enters a handler: by induction on the
    iterations left. *)
Lemma connect_loop_no_run remaining : forall attempt last s,
  Forall (fun e => is_run e = false) (connect_loop w remaining attempt last s).2.
Proof.
  induction remaining as [|remaining IH]; intros attempt last s.
  - constructor.
  - destruct (attempt_result w (connect_calls s)) as [p|e] eqn:H.
    + rewrite (connect_loop_resolves w _ _ _ _ p H). simpl.
      unfold attempt_events.
      destruct (createSqlConfig (env w) (platform w)); repeat constructor.
    + rewrite (connect_loop_rejects w _ _ _ _ e H).
      specialize (IH (S attempt) (Some e) (after_failed_attempt w s)).
      destruct (connect_loop w remaining (S attempt) (Some e) (after_failed_attempt w s))
        as [[r s'] tr]. cbn [snd] in *.
      apply Forall_app_2.
      * unfold attempt_events.
        destruct (createSqlConfig (env w) (platform w)); repeat constructor.
      * constructor; [reflexivity|]. apply Forall_app_2; [|exact IH].
        destruct (attempt <? MAX_RETRY_ATTEMPTS)%nat; repeat constructor.
Qed.

Lemma ensure_no_run s :
  Forall (fun e => is_run e = false) (ensureSqlConnection w s).2.
Proof.
  destruct (pool_ready s) eqn:Hr.
  { rewrite (ensure_ready w s Hr). constructor. }
  destruct (globalSqlPool s) as [p|] eqn:Hp.
  - assert (Hc : pool_connected s p = false).
    { unfold pool_ready in Hr. by rewrite Hp in Hr. }
    rewrite (ensure_stale w s p Hp Hc), ensure_absent by reflexivity.
    pose proof (connect_loop_no_run MAX_RETRY_ATTEMPTS 1 None
                  (set_globalSqlPool None (after_close w p s))) as H.
    destruct (connect_loop _ _ _ _ _) as [[r s'] tr]. simpl in *.
    by constructor.
  - rewrite (ensure_absent w s Hp). apply connect_loop_no_run.
Qed.

(** When [ensureSqlConnection] returns normally, either the pool held was
    found connected and nothing happened, or one of the iterations of this
    very run obtained the pool that is now held. *)
Lemma ensure_normal_acquired s s1 tr1 :
  ensureSqlConnection w s = (Normal tt, s1, tr1) ->
  (pool_ready s = true /\ s1 = s /\ tr1 = [])
  \/ (pool_ready s = false
      /\ exists k q, (k < MAX_RETRY_ATTEMPTS)%nat
           /\ attempt_result w (connect_calls s + k) = Normal q
           /\ globalSqlPool s1 = Some q
           /\ pool_connected s1 q = true).
Proof.
  intros H. destruct (pool_ready s) eqn:Hr.
  { rewrite (ensure_ready w s Hr) in H. injection H as <- <-. by left. }
  right. split; [reflexivity|].
  assert (Hfresh : forall s0, globalSqlPool s0 = None -> forall s2 tr2,
            ensureSqlConnection w s0 = (Normal tt, s2, tr2) ->
            exists k q, (k < MAX_RETRY_ATTEMPTS)%nat
              /\ attempt_result w (connect_calls s0 + k) = Normal q
              /\ globalSqlPool s2 = Some q
              /\ pool_connected s2 q = true).
  { intros s0 H0 s2 tr2 E. pose proof (ensure_absent_fresh w s0 H0) as F.
    rewrite E in F. destruct F as (_ & k & q & Hk & Hres & Hq & Hcon & _).
    by exists k, q. }
  destruct (globalSqlPool s) as [p|] eqn:Hp.
  - assert (Hc : pool_connected s p = false).
    { unfold pool_ready in Hr. by rewrite Hp in Hr. }
    rewrite (ensure_stale w s p Hp Hc) in H.
    destruct (ensureSqlConnection w (set_globalSqlPool None (after_close w p s)))
      as [[r s2] tr2] eqn:E.
    simpl in H. injection H as -> -> _.
    assert (Hcalls : connect_calls (set_globalSqlPool None (after_close w p s))
                     = connect_calls s).
    { unfold after_close. by destruct (pool_close w p). }
    rewrite <- Hcalls. by eapply Hfresh; [|exact E].
  - by eapply Hfresh.
Qed.

Lemma ensure_normal_ready s s1 tr1 :
  ensureSqlConnection w s = (Normal tt, s1, tr1) -> pool_ready s1 = true.
Proof.
  intros H. destruct (ensure_normal_acquired s s1 tr1 H)
    as [(Hr & -> & _)|(_ & k & q & _ & _ & Hq & Hcon)]; [exact Hr|].
  unfold pool_ready. by rewrite Hq.
Qed.

(** *** The [switch] *)


Lemma select_case_sound name t : select_case w name = Some t -> name = tool_name w t.
Proof.
  unfold select_case. intros H. apply find_some in H as [_ H].
  by apply String.eqb_eq.
Qed.

Lemma select_case_registered t :
  (forall t1 t2, tool_name w t1 = tool_name w t2 -> t1 = t2) ->
  select_case w (tool_name w t) = Some t.
Proof.
  intros Hinj. unfold select_case, switch_cases. simpl.
  repeat match goal with
  | |- context [String.eqb ?a ?b] =>
      let E := fresh "E" in
      destruct (String.eqb_spec a b) as [E|E];
        [apply Hinj in E; by rewrite E|]
  end.
  by destruct t.
Qed.

(** *** The call handler, case by case *)

Lemma CallTool_unknown name args s :
  select_case w name = None ->
  CallTool w name args s = (text_error ("Unknown tool: " +:+ name), s, []).
Proof. intros H. unfold CallTool, call_body. by rewrite H. Qed.

Lemma CallTool_tableName name args s :
  select_case w name = Some DescribeTable -> tableName_invalid args = true ->
  CallTool w name args s =
    (text_error "Missing or invalid 'tableName' argument for describe_table tool.", s, []).
Proof. intros H Hv. unfold CallTool, call_body. by rewrite H, Hv. Qed.

Lemma CallTool_run name t args s :
  select_case w name = Some t ->
  (t = DescribeTable -> tableName_invalid args = false) ->
  CallTool w name args s =
    match ensureSqlConnection w s with
    | (Throw e, s1, tr1) => (text_error ("Error occurred: " +:+ toString e), s1, tr1)
    | (Normal _, s1, tr1) =>
        (match original_run w t args with
         | Throw e => text_error ("Error occurred: " +:+ toString e)
         | Normal result =>
             match JSON_stringify w result with
             | Normal txt => text_result txt
             | Throw e => text_error ("Error occurred: " +:+ toString e)
             end
         end, s1, (tr1 ++ [EvRun t args])%list)
    end.
Proof.
  intros H Hv. unfold CallTool, call_body. rewrite H.
  assert (Hgo :
    match (result <- run w t args;; respond w result) s with
    | (Normal envelope, s', tr) => (envelope, s', tr)
    | (Throw error, s', tr) => (text_error ("Error occurred: " +:+ toString error), s', tr)
    end =
    match ensureSqlConnection w s with
    | (Throw e, s1, tr1) => (text_error ("Error occurred: " +:+ toString e), s1, tr1)
    | (Normal _, s1, tr1) =>
        (match original_run w t args with
         | Throw e => text_error ("Error occurred: " +:+ toString e)
         | Normal result =>
             match JSON_stringify w result with
             | Normal txt => text_result txt
             | Throw e => text_error ("Error occurred: " +:+ toString e)
             end
         end, s1, (tr1 ++ [EvRun t args])%list)
    end).
  { unfold bind at 1. rewrite run_unfold.
    destruct (ensureSqlConnection w s) as [[[[]|e] s1] tr1]; [|reflexivity].
    destruct (original_run w t args) as [result|e]; [|reflexivity].
    unfold respond, bind, lift, ret.
    destruct (JSON_stringify w result) as [txt|e]; simpl; by rewrite app_nil_r. }
  destruct t; try exact Hgo.
  rewrite (Hv eq_refl). exact Hgo.
Qed.

End Dispatch.

Section DispatchClaims.

Context {Value : Type}.
Variable w : World Value.



(** C3, as the code has it. The only argument check of the dispatcher is
    the one of [describe_table]: called without arguments, or with a
    [tableName] that is not a string, it is answered by an error envelope
    that names ['tableName'], with no event (no connection attempt, no
    handler) and the state untouched. For every other tool the dispatcher
    looks at no argument: whatever they are, [ensureSqlConnection] runs
    first, and its events open the trace of the call. *)
Theorem only_describe_table_is_validated name t s :
  select_case w name = Some t ->
  (t = DescribeTable ->
     forall args, tableName_invalid args = true ->
     CallTool w name args s =
       (text_error "Missing or invalid 'tableName' argument for describe_table tool.",
        s, []))
  /\ (t <> DescribeTable ->
      forall args, exists tr2,
        (CallTool w name args s).2 = ((ensureSqlConnection w s).2 ++ tr2)%list).
Proof.
  intros Hsel. split.
  - intros -> args Hv. by apply CallTool_tableName.
  - intros Hne args. rewrite (CallTool_run w name t args s Hsel) by done.
    destruct (ensureSqlConnection w s) as [[[[]|e] s1] tr1]; simpl.
    + by exists [EvRun t args].
    + exists []. by rewrite app_nil_r.
Qed.

(** C1, at the code. In read-only mode the five writing tools are not
    listed, yet a call that names one of them is dispatched like any
    other: with a connected pool held, the handler body runs and its
    result comes back in a success envelope, not in the envelope of an
    unknown tool. *)
Theorem readonly_write_tool_is_dispatched t args s result txt :
  isReadOnly w = true ->
  In t [InsertData; UpdateData; CreateTable; CreateIndex; DropTable] ->
  select_case w (tool_name w t) = Some t ->
  pool_ready s = true ->
  original_run w t args = Normal result ->
  JSON_stringify w result = Normal txt ->
  ~ In t (ListTools w)
  /\ CallTool w (tool_name w t) args s = (text_result txt, s, [EvRun t args])
  /\ CallTool w (tool_name w t) args s
     <> (text_error ("Unknown tool: " +:+ tool_name w t), s, []).
Proof.
  intros Hro Hin Hsel Hready Hrun Hjson.
  assert (Hcall : CallTool w (tool_name w t) args s = (text_result txt, s, [EvRun t args])).
  { rewrite (CallTool_run w _ t args s Hsel).
    - by rewrite (ensure_ready w s Hready), Hrun, Hjson.
    - intros ->. simpl in Hin. intuition discriminate. }
  split; [|split; [exact Hcall|by rewrite Hcall]].
  unfold ListTools. rewrite Hro. clear -Hin.
  destruct t; simpl in *; intuition discriminate.
Qed.

End DispatchClaims.

(** ** The theorems at work on the concrete world *)

(** Two refusals, then a connection: three attempts, both waits, pool 7
    held, connected and observed. *)
Example third_attempt_succeeds :
  let '(r, s', tr) := ensureSqlConnection (Demo.world Demo.full_env 2) Demo.fresh in
  r = Normal tt /\ attempts tr = 3%nat /\ sleeps tr = [1000; 2000]
  /\ globalSqlPool s' = Some 7%nat
  /\ pools s' !! 7%nat = Some {| connected := true; error_listeners := 1 |}.
Proof. vm_compute. by repeat split. Qed.

(** C3, the claim as written fails: [insert_data] called without any
    arguments, in a process that holds no pool, opens a connection (one
    iteration, one call of [sql.connect], pool 7 held afterwards) before
    the handler is entered and fails on the missing arguments. *)
Lemma missing_arguments_still_connect :
  let '(envelope, s', tr) :=
    CallTool (Demo.world Demo.full_env 0) "insert_data" None Demo.fresh in
  attempts tr = 1%nat /\ connects tr = 1%nat
  /\ globalSqlPool s' = Some 7%nat
  /\ last tr = Some (EvRun InsertData None)
  /\ isError envelope = true.
Proof. vm_compute. by repeat split. Qed.

Lemma ensure_ready_is_immediate_witness :
  pool_ready Demo.ready = true
  /\ ensureSqlConnection (Demo.world Demo.full_env 0) Demo.ready
     = (Normal tt, Demo.ready, []).
Proof.
  split; [reflexivity|].
  apply (ensure_ready_is_immediate (Demo.world Demo.full_env 0) Demo.ready).
  reflexivity.
Defined.

Lemma ensure_absent_pool_retries_witness :
  globalSqlPool Demo.fresh = None
  /\ (ensureSqlConnection (Demo.world Demo.full_env 3) Demo.fresh).1.1
     = Throw (new_Error "Failed to connect after 3 attempts. Last error: ECONNREFUSED").
Proof.
  split; [reflexivity|].
  pose proof (ensure_absent_pool_retries (Demo.world Demo.full_env 3) Demo.fresh eq_refl) as H.
  destruct (ensureSqlConnection (Demo.world Demo.full_env 3) Demo.fresh) as [[r s'] tr].
  destruct H as (_ & _ & _ & H & _). apply H.
  exists (mkError "ConnectionError" "ECONNREFUSED"),
         (mkError "ConnectionError" "ECONNREFUSED"),
         (mkError "ConnectionError" "ECONNREFUSED").
  repeat split.
Defined.

Lemma invalid_port_reported_after_retries_witness :
  port_invalid (cfg_port Demo.bad_port_env) = true
  /\ pool_ready Demo.fresh = false
  /\ (ensureSqlConnection (Demo.world Demo.bad_port_env 0) Demo.fresh).1.1
     = Throw (new_Error
         "Failed to connect after 3 attempts. Last error: Invalid port number: 70000. Must be between 1 and 65535.").
Proof.
  split; [reflexivity|]. split; [reflexivity|].
  pose proof (invalid_port_reported_after_retries
                (Demo.world Demo.bad_port_env 0) Demo.fresh eq_refl eq_refl) as H.
  destruct (ensureSqlConnection (Demo.world Demo.bad_port_env 0) Demo.fresh) as [[r s'] tr].
  destruct H as (H & _). exact H.
Defined.



Lemma only_describe_table_is_validated_witness :
  select_case (Demo.world Demo.full_env 0) "describe_table" = Some DescribeTable
  /\ tableName_invalid (Some {[ "tableName" := JNum 3 ]}) = true
  /\ CallTool (Demo.world Demo.full_env 0) "describe_table"
       (Some {[ "tableName" := JNum 3 ]}) Demo.fresh
     = (text_error "Missing or invalid 'tableName' argument for describe_table tool.",
        Demo.fresh, []).
Proof.
  split; [reflexivity|]. split; [reflexivity|].
  apply (only_describe_table_is_validated (Demo.world Demo.full_env 0)
           "describe_table" DescribeTable Demo.fresh eq_refl); reflexivity.
Defined.

Lemma readonly_write_tool_is_dispatched_witness :
  isReadOnly (Demo.world Demo.readonly_env 0) = true
  /\ ~ In InsertData (ListTools (Demo.world Demo.readonly_env 0))
  /\ CallTool (Demo.world Demo.readonly_env 0) "insert_data" Demo.insert_args Demo.ready
     = (text_result (Some "1"), Demo.ready, [EvRun InsertData Demo.insert_args]).
Proof.
  split; [reflexivity|].
  destruct (readonly_write_tool_is_dispatched (Demo.world Demo.readonly_env 0)
              InsertData Demo.insert_args Demo.ready 1 (Some "1"))
    as (H1 & H2 & _); try reflexivity.
  - simpl. tauto.
  - split; [exact H1|exact H2].
Defined.

(** * Further properties of the module *)

(** ** The configuration resolver *)

Lemma truthy_nonempty (v : string) : truthy (Some v) = true <-> v <> "".
Proof.
  unfold truthy. destruct (String.eqb_spec v ""); simpl; split; congruence.
Qed.

(** X1. [createSqlConfig] can only fail when [PORT] is set to a non-empty
    text, and the error then quotes that text as it stands: the message is
    ["Invalid port number: "], the text, [". Must be between 1 and 65535."];
    the text either starts with no numeral or with one outside 1..65535. *)
Theorem port_error_quotes_PORT (env : gmap string string) (platform : string) (e : Error) :
  createSqlConfig env platform = Throw e ->
  exists raw,
    env !! "PORT" = Some raw /\ raw <> ""
    /\ e = new_Error ("Invalid port number: " +:+ raw +:+ ". Must be between 1 and 65535.")
    /\ (parseInt raw = None \/ exists n, parseInt raw = Some n /\ (n < 1 \/ 65535 < n)).
Proof.
  intros H.
  destruct (env !! "PORT") as [raw|] eqn:Hraw.
  2:{ unfold createSqlConfig, cfg_port in H. rewrite Hraw in H. discriminate H. }
  destruct (truthy (Some raw)) eqn:Ht.
  2:{ unfold createSqlConfig, cfg_port in H. rewrite Hraw, Ht in H. discriminate H. }
  assert (Hport : cfg_port env = parseInt raw).
  { unfold cfg_port. by rewrite Hraw, Ht. }
  assert (He : e = port_error env).
  { unfold createSqlConfig in H. destruct (cfg_port env) as [n|].
    - destruct (port_invalid (Some n)); [by injection H|discriminate H].
    - by injection H. }
  exists raw. split; [done|]. split; [by apply truthy_nonempty|].
  split; [by rewrite He; unfold port_error; rewrite Hraw|].
  destruct (parseInt raw) as [n|] eqn:Hn; [right|by left].
  exists n. split; [done|].
  destruct (decide (1 <= n <= 65535)) as [Hr|Hr]; [|lia].
  rewrite (createSqlConfig_valid env platform n Hport) in H; [discriminate H|].
  by apply port_invalid_range.
Qed.

Lemma port_error_quotes_PORT_witness :
  createSqlConfig Demo.bad_port_env "linux"
    = Throw (new_Error "Invalid port number: 70000. Must be between 1 and 65535.")
  /\ Demo.bad_port_env !! "PORT" = Some "70000".
Proof.
  split; [reflexivity|].
  destruct (port_error_quotes_PORT Demo.bad_port_env "linux"
              (new_Error "Invalid port number: 70000. Must be between 1 and 65535.")
              eq_refl) as (raw & Hraw & _).
  vm_compute in Hraw. injection Hraw as <-. reflexivity.
Defined.

(** *** What [parseInt] tolerates around a numeral *)

Lemma trim_start_spaces (ws rest : string) :
  all_space ws = true -> trim_start (ws +:+ rest) = trim_start rest.
Proof.
  induction ws as [|c ws IH]; [done|]. cbn [all_space].
  intros [Hc Hws]%andb_true_iff.
  change (String c ws +:+ rest) with (String c (ws +:+ rest)).
  cbn [trim_start]. rewrite Hc. by apply IH.
Qed.

Lemma parseInt_spaces (ws rest : string) :
  all_space ws = true -> parseInt (ws +:+ rest) = parseInt rest.
Proof. intros H. unfold parseInt. by rewrite trim_start_spaces. Qed.

Lemma pretty_N_go_app (x : N) : forall s, pretty_N_go x s = pretty_N_go x "" +:+ s.
Proof.
  induction (N.lt_wf_0 x) as [x _ IH]; intros s.
  destruct (decide (x = 0)%N) as [->|Hx]; [by rewrite !pretty_N_go_0|].
  assert (Hlt : (x `div` 10 < x)%N) by (apply N.div_lt; lia).
  rewrite !(pretty_N_go_step x) by lia.
  rewrite (IH _ Hlt (String (pretty_N_char (x `mod` 10)) s)).
  rewrite (IH _ Hlt (String (pretty_N_char (x `mod` 10)) "")).
  by rewrite append_assoc.
Qed.

Lemma digits_stop (junk : string) (acc : option Z) :
  no_leading_digit junk = true -> digits junk acc = acc.
Proof.
  destruct junk as [|c r]; [done|]. cbn [no_leading_digit digits].
  by destruct (digit c).
Qed.

Lemma parseInt_numeral_junk (x : N) (junk : string) :
  no_leading_digit junk = true ->
  parseInt (pretty x +:+ junk) = Some (Z.of_N x).
Proof.
  intros Hj. unfold pretty, pretty_N. case_decide as H0.
  - subst. change ("0" +:+ junk) with (String "0" junk).
    change (parseInt (String "0" junk)) with (digits junk (Some 0)).
    by apply digits_stop.
  - rewrite <- pretty_N_go_app.
    destruct (pretty_N_go_head x junk) as (m & r & Hm & E); [lia|].
    rewrite E, (parseInt_digit_head m r Hm), <- E.
    rewrite digits_pretty_N_go by lia. by apply digits_stop.
Qed.

Lemma append_nonempty (a b : string) : b <> "" -> a +:+ b <> "".
Proof. destruct a; [done|]. intros _. discriminate. Qed.

Lemma pretty_N_nonempty (x : N) : pretty x <> "".
Proof.
  unfold pretty, pretty_N. case_decide as H0; [discriminate|].
  destruct (pretty_N_go_head x "") as (m & r & _ & ->); [lia|discriminate].
Qed.

(** X2. [PORT] is read leniently: white space in front of a decimal
    numeral and anything that does not start with a digit behind it are
    ignored. Such a text resolves to the numeral's value: a configuration
    with that port when it lies in 1..65535, the port error otherwise. *)
Theorem port_numeral_with_padding (env : gmap string string) (platform : string)
    (x : N) (ws junk : string) :
  all_space ws = true ->
  no_leading_digit junk = true ->
  env !! "PORT" = Some (ws +:+ pretty x +:+ junk) ->
  cfg_port env = Some (Z.of_N x)
  /\ (1 <= Z.of_N x <= 65535 ->
        createSqlConfig env platform = Normal (sql_config env platform (Z.of_N x)))
  /\ (Z.of_N x < 1 \/ 65535 < Z.of_N x ->
        createSqlConfig env platform = Throw (port_error env)).
Proof.
  intros Hws Hj Henv.
  assert (Hport : cfg_port env = Some (Z.of_N x)).
  { assert (Ht : truthy (Some (ws +:+ pretty x +:+ junk)) = true).
    { apply truthy_nonempty, append_nonempty.
      intros H. destruct (pretty x) eqn:E; [by apply (pretty_N_nonempty x)|discriminate]. }
    unfold cfg_port. rewrite Henv, Ht.
    change (default "" (Some (ws +:+ pretty x +:+ junk))) with (ws +:+ pretty x +:+ junk).
    rewrite parseInt_spaces by done. by apply parseInt_numeral_junk. }
  split; [done|]. split.
  - intros Hr. apply createSqlConfig_valid; [done|by apply port_invalid_range].
  - intros Hr. apply createSqlConfig_invalid. rewrite Hport.
    destruct (port_invalid (Some (Z.of_N x))) eqn:E; [done|].
    apply port_invalid_range in E. lia.
Qed.

Lemma port_numeral_with_padding_witness :
  let env : gmap string string := {[ "PORT" := "  1433abc" ]} in
  env !! "PORT" = Some ("  " +:+ pretty 1433%N +:+ "abc")
  /\ createSqlConfig env "linux" = Normal (sql_config env "linux" 1433).
Proof.
  intros env. split; [reflexivity|].
  apply (port_numeral_with_padding env "linux" 1433%N "  " "abc");
    [reflexivity|reflexivity|reflexivity|lia].
Defined.

(** *** Timeouts and platform *)

Lemma createSqlConfig_inv (env : gmap string string) (platform : string) (cfg : SqlConfig) :
  createSqlConfig env platform = Normal cfg ->
  exists n, cfg_port env = Some n /\ 1 <= n <= 65535 /\ cfg = sql_config env platform n.
Proof.
  unfold createSqlConfig. destruct (cfg_port env) as [n|]; [|discriminate].
  destruct (port_invalid (Some n)) eqn:E; [discriminate|].
  intros [= <-]. exists n. by repeat split; try apply port_invalid_range.
Qed.

(** X3. A [CONNECTION_TIMEOUT] that is set to a non-empty text is taken as
    [parseInt] reads it, on every platform, and is not validated. When the
    text has a leading numeral [n] and [1000 * n] stays within 2^53 (where
    the code's arithmetic is exact), the connection, request and
    pool-acquire timeouts of the configuration are all [1000 * n], zero
    and negative values included; in particular for the decimal numeral of
    such an [n]. When the text is ASCII and has no leading numeral, the
    three timeouts are [NaN], and the configuration is returned all the
    same. *)
Theorem explicit_timeout_is_taken_as_read (env : gmap string string) (platform : string)
    (v : string) (cfg : SqlConfig) :
  env !! "CONNECTION_TIMEOUT" = Some v -> v <> "" ->
  createSqlConfig env platform = Normal cfg ->
  (forall n : Z,
     parseInt v = Some n -> Z.abs (1000 * n) <= 2 ^ 53 ->
     connectionTimeout cfg = Some (1000 * n)
     /\ requestTimeout cfg = Some (1000 * n)
     /\ acquireTimeoutMillis (pool cfg) = Some (1000 * n))
  /\ (forall n : Z,
        v = pretty n -> Z.abs (1000 * n) <= 2 ^ 53 ->
        connectionTimeout cfg = Some (1000 * n))
  /\ (parseInt v = None -> all_ascii v = true ->
        connectionTimeout cfg = None
        /\ requestTimeout cfg = None
        /\ acquireTimeoutMillis (pool cfg) = None).
Proof.
  intros Hv Hne Hcfg.
  destruct (createSqlConfig_inv env platform cfg Hcfg) as (n & _ & _ & ->).
  assert (Ht : truthy (env !! "CONNECTION_TIMEOUT") = true).
  { rewrite Hv. by apply truthy_nonempty. }
  assert (Ha : adjustedTimeout env platform = parseInt v).
  { unfold adjustedTimeout, cfg_connectionTimeout. rewrite Ht, andb_false_r.
    by rewrite Hv. }
  cbn [connectionTimeout requestTimeout pool acquireTimeoutMillis sql_config].
  rewrite Ha. split; [|split].
  - intros m -> _. by repeat split.
  - intros m -> _. by rewrite parseInt_pretty.
  - intros -> _. by repeat split.
Qed.

Lemma explicit_timeout_is_taken_as_read_witness :
  let env : gmap string string := {[ "CONNECTION_TIMEOUT" := "-5" ]} in
  env !! "CONNECTION_TIMEOUT" = Some "-5"
  /\ parseInt "-5" = Some (-5)
  /\ Z.abs (1000 * -5) <= 2 ^ 53
  /\ connectionTimeout (sql_config env "darwin" 1433) = Some (-5000).
Proof.
  intros env. split; [reflexivity|]. split; [reflexivity|].
  assert (Hb : Z.abs (1000 * -5) <= 2 ^ 53) by (vm_compute; discriminate).
  split; [exact Hb|].
  destruct (explicit_timeout_is_taken_as_read env "darwin" "-5"
              (sql_config env "darwin" 1433) eq_refl) as (H & _).
  - discriminate.
  - reflexivity.
  - by destruct (H (-5) eq_refl Hb) as (Hc & _).
Defined.

(** X4. With [CONNECTION_TIMEOUT] unset or empty the three timeouts are
    30000 ms, and 60000 ms on macOS. On macOS the certificate is trusted
    whatever [TRUST_SERVER_CERTIFICATE] says and TLS 1.2 is the minimum;
    elsewhere the certificate is trusted exactly when the variable, in
    lower case, is ["true"], and no minimum TLS version is set. *)
Theorem platform_defaults (env : gmap string string) (platform : string) (cfg : SqlConfig) :
  createSqlConfig env platform = Normal cfg ->
  (truthy (env !! "CONNECTION_TIMEOUT") = false ->
     let ms := if String.eqb platform "darwin" then 60000 else 30000 in
     connectionTimeout cfg = Some ms /\ requestTimeout cfg = Some ms
     /\ acquireTimeoutMillis (pool cfg) = Some ms)
  /\ (platform = "darwin" ->
        trustServerCertificate (options cfg) = true
        /\ cryptoCredentialsDetails (options cfg) = Some "TLSv1.2")
  /\ (platform <> "darwin" ->
        (trustServerCertificate (options cfg) = true <->
           exists v, env !! "TRUST_SERVER_CERTIFICATE" = Some v /\ toLowerCase v = "true")
        /\ cryptoCredentialsDetails (options cfg) = None).
Proof.
  intros Hcfg.
  destruct (createSqlConfig_inv env platform cfg Hcfg) as (n & _ & _ & ->).
  cbn [connectionTimeout requestTimeout pool acquireTimeoutMillis sql_config
       options trustServerCertificate cryptoCredentialsDetails].
  unfold adjustedTimeout, cfg_connectionTimeout, isMacOS, cfg_trustServerCertificate.
  split; [|split].
  - intros ->. by destruct (String.eqb platform "darwin").
  - intros ->. done.
  - intros Hne. apply String.eqb_neq in Hne. rewrite Hne. split; [|done].
    destruct (env !! "TRUST_SERVER_CERTIFICATE") as [v|]; cbn [fmap option_fmap option_map].
    + rewrite String.eqb_eq. split; [by exists v|]. by intros (? & [= <-] & ?).
    + split; [done|]. by intros (? & ? & _).
Qed.

Lemma platform_defaults_witness :
  let cfg := sql_config {[ "TRUST_SERVER_CERTIFICATE" := "false" ]} "darwin" 1433 in
  trustServerCertificate (options cfg) = true /\ connectionTimeout cfg = Some 60000.
Proof.
  intros cfg.
  assert (Hcfg : createSqlConfig {[ "TRUST_SERVER_CERTIFICATE" := "false" ]} "darwin"
                 = Normal cfg) by reflexivity.
  destruct (platform_defaults _ _ _ Hcfg) as (Ht & Hd & _).
  split; [by apply Hd|]. by apply Ht.
Defined.

(** X5. Whatever the environment and the platform, a configuration that
    [createSqlConfig] returns has a port from 1 to 65535, encryption and
    [enableArithAbort] switched on, a pool of at most 10 and at least 0
    connections with an idle timeout of 30000 ms, and one and the same
    value for its connection, request and pool-acquire timeouts. *)
Theorem config_invariants (env : gmap string string) (platform : string) (cfg : SqlConfig) :
  createSqlConfig env platform = Normal cfg ->
  1 <= port cfg <= 65535
  /\ encrypt (options cfg) = true
  /\ enableArithAbort (options cfg) = true
  /\ pool_max (pool cfg) = 10 /\ pool_min (pool cfg) = 0
  /\ idleTimeoutMillis (pool cfg) = 30000
  /\ requestTimeout cfg = connectionTimeout cfg
  /\ acquireTimeoutMillis (pool cfg) = connectionTimeout cfg.
Proof.
  intros Hcfg.
  destruct (createSqlConfig_inv env platform cfg Hcfg) as (n & _ & Hr & ->).
  by repeat split; try apply Hr.
Qed.

Lemma config_invariants_witness :
  createSqlConfig Demo.full_env "linux" = Normal (sql_config Demo.full_env "linux" 1433)
  /\ encrypt (options (sql_config Demo.full_env "linux" 1433)) = true.
Proof.
  split; [reflexivity|].
  by destruct (config_invariants Demo.full_env "linux"
                 (sql_config Demo.full_env "linux" 1433) eq_refl) as (_ & H & _).
Defined.

(** ** The backoff *)

(** X6. From the first attempt on, the wait of line 245 is at least
    1000 ms and at most 10000 ms, never shrinks from one attempt to the
    next, doubles until the cap, and is the cap from the fifth attempt on. *)
Theorem backoff_delay_bounds (a : nat) :
  (1 <= a)%nat ->
  1000 <= backoff_delay a <= 10000
  /\ backoff_delay (S a) = Z.min (2 * backoff_delay a) 10000
  /\ backoff_delay a <= backoff_delay (S a)
  /\ ((5 <= a)%nat -> backoff_delay a = 10000).
Proof.
  intros Ha. unfold backoff_delay.
  replace (Z.of_nat (S a) - 1) with (Z.succ (Z.of_nat a - 1)) by lia.
  rewrite Z.pow_succ_r by lia.
  assert (Hp : 1 <= 2 ^ (Z.of_nat a - 1)).
  { change 1 with (2 ^ 0). apply Z.pow_le_mono_r; lia. }
  assert (H5 : (5 <= a)%nat -> 16 <= 2 ^ (Z.of_nat a - 1)).
  { intros H. change 16 with (2 ^ 4). apply Z.pow_le_mono_r; lia. }
  revert Hp H5. generalize (2 ^ (Z.of_nat a - 1)). intros p Hp H5.
  repeat split; lia.
Qed.

Lemma backoff_delay_bounds_witness :
  backoff_delay 4 = 8000 /\ backoff_delay 5 = 10000.
Proof.
  destruct (backoff_delay_bounds 4) as (_ & H & _); [lia|].
  split; [reflexivity|]. rewrite H. reflexivity.
Defined.

(** ** The pool manager, from any state *)

Lemma closes_app (a b : list Event) : closes (a ++ b) = (closes a + closes b)%nat.
Proof. unfold closes. by rewrite filter_app, length_app. Qed.

Lemma runs_app (a b : list Event) : runs (a ++ b) = (runs a + runs b)%nat.
Proof. unfold runs. by rewrite filter_app, length_app. Qed.

Lemma closes_cons e (l : list Event) :
  closes (e :: l) = ((if is_close e then 1 else 0) + closes l)%nat.
Proof. by destruct e. Qed.

Lemma runs_cons e (l : list Event) :
  runs (e :: l) = ((if is_run e then 1 else 0) + runs l)%nat.
Proof. by destruct e. Qed.

Lemma closes_nil : closes [] = 0%nat.
Proof. reflexivity. Qed.

Lemma runs_nil : runs [] = 0%nat.
Proof. reflexivity. Qed.

Lemma closes_attempt_events {Value : Type} (w : World Value) a :
  closes (attempt_events w a) = 0%nat.
Proof.
  unfold attempt_events.
  destruct (createSqlConfig (env w) (platform w)); reflexivity.
Qed.

Lemma runs_attempt_events {Value : Type} (w : World Value) a :
  runs (attempt_events w a) = 0%nat.
Proof.
  unfold attempt_events.
  destruct (createSqlConfig (env w) (platform w)); reflexivity.
Qed.

Ltac read_events :=
  unfold waited;
  repeat first
    [ rewrite closes_app | rewrite closes_cons | rewrite closes_attempt_events
    | rewrite runs_app | rewrite runs_cons | rewrite runs_attempt_events
    | rewrite closes_nil | rewrite runs_nil
    | rewrite attempts_app | rewrite attempts_cons | rewrite attempts_attempt_events
    | rewrite sleeps_app | rewrite sleeps_cons | rewrite sleeps_attempt_events
    | rewrite connects_app | rewrite connects_cons | rewrite connects_attempt_events
    | rewrite attempts_nil | rewrite connects_nil ];
  simpl.

Section Manager.

Context {Value : Type}.
Variable w : World Value.

Lemma cleared_absent s : globalSqlPool (cleared w s).1 = None.
Proof. unfold cleared. by destruct (globalSqlPool s) eqn:E. Qed.

Lemma cleared_calls s : connect_calls (cleared w s).1 = connect_calls s.
Proof.
  unfold cleared, after_close. destruct (globalSqlPool s) as [p|]; [|done].
  by destruct (pool_close w p).
Qed.

Lemma cleared_retry s : connectionRetryCount (cleared w s).1 = connectionRetryCount s.
Proof.
  unfold cleared, after_close. destruct (globalSqlPool s) as [p|]; [|done].
  by destruct (pool_close w p).
Qed.

Lemma cleared_listeners s p : listeners (cleared w s).1 p = listeners s p.
Proof.
  unfold cleared, after_close, listeners. destruct (globalSqlPool s) as [q|]; [|done].
  destruct (pool_close w q); [|done]. simpl.
  rewrite lookup_alter. case_decide; [subst|done].
  by destruct (pools s !! p).
Qed.

(** A run that does not find a connected pool: the clearing, then the
    retry loop from a state without pool. *)
Lemma ensure_not_ready s :
  pool_ready s = false ->
  ensureSqlConnection w s =
    let '(r, s', tr) := connect_loop w MAX_RETRY_ATTEMPTS 1 None (cleared w s).1 in
    (r, s', ((cleared w s).2 ++ tr)%list).
Proof.
  intros Hr. unfold cleared. destruct (globalSqlPool s) as [p|] eqn:Hp.
  - assert (Hc : pool_connected s p = false).
    { unfold pool_ready in Hr. by rewrite Hp in Hr. }
    rewrite (ensure_stale w s p Hp Hc), ensure_absent by reflexivity.
    cbn [fst snd]. by destruct (connect_loop _ _ _ _ _) as [[r s'] tr].
  - rewrite (ensure_absent w s Hp). cbn [fst snd].
    by destruct (connect_loop _ _ _ _ _) as [[r s'] tr].
Qed.

(** The four ways the retry loop can go from a state [s]. *)
Lemma sequence_cases s :
  (exists p,
     attempt_result w (connect_calls s) = Normal p
     /\ connect_loop w MAX_RETRY_ATTEMPTS 1 None s =
        (Normal tt, after_connect p s, (attempt_events w 1 ++ [EvListen p])%list))
  \/ (exists e1 p,
        attempt_result w (S (connect_calls s)) = Normal p
        /\ connect_loop w MAX_RETRY_ATTEMPTS 1 None s =
           (Normal tt, after_connect p (after_failed_attempt w s),
            (attempt_events w 1 ++ EvAttemptFailed 1 (message e1) :: EvSleep 1000
               :: attempt_events w 2 ++ [EvListen p])%list))
  \/ (exists e1 e2 p,
        attempt_result w (S (S (connect_calls s))) = Normal p
        /\ connect_loop w MAX_RETRY_ATTEMPTS 1 None s =
           (Normal tt,
            after_connect p (after_failed_attempt w (after_failed_attempt w s)),
            (attempt_events w 1 ++ EvAttemptFailed 1 (message e1) :: EvSleep 1000
               :: attempt_events w 2 ++ EvAttemptFailed 2 (message e2) :: EvSleep 2000
               :: attempt_events w 3 ++ [EvListen p])%list))
  \/ (exists e1 e2 e3,
        attempt_result w (S (S (connect_calls s))) = Throw e3
        /\ connect_loop w MAX_RETRY_ATTEMPTS 1 None s =
           (Throw (connect_failure (Some e3)),
            after_failed_attempt w (after_failed_attempt w (after_failed_attempt w s)),
            (attempt_events w 1 ++ EvAttemptFailed 1 (message e1) :: EvSleep 1000
               :: attempt_events w 2 ++ EvAttemptFailed 2 (message e2) :: EvSleep 2000
               :: attempt_events w 3 ++ [EvAttemptFailed 3 (message e3)])%list)).
Proof.
  destruct (attempt_result w (connect_calls s)) as [p|e1] eqn:H1.
  { left. exists p. split; [done|]. by apply sequence_first. }
  destruct (attempt_result w (S (connect_calls s))) as [p|e2] eqn:H2.
  { right; left. exists e1, p. split; [done|]. by apply sequence_second. }
  destruct (attempt_result w (S (S (connect_calls s)))) as [p|e3] eqn:H3.
  { right; right; left. exists e1, e2, p. split; [done|]. by apply sequence_third. }
  right; right; right. exists e1, e2, e3. split; [done|]. by apply sequence_exhausted.
Qed.

Lemma closes_cleared s :
  closes (cleared w s).2 = match globalSqlPool s with Some _ => 1%nat | None => 0%nat end.
Proof. unfold cleared. by destruct (globalSqlPool s). Qed.

Lemma ensure_work_bounds s :
  (attempts (ensureSqlConnection w s).2 <= 3)%nat
  /\ (connects (ensureSqlConnection w s).2 <= attempts (ensureSqlConnection w s).2)%nat
  /\ 0 <= waited (ensureSqlConnection w s).2 <= 3000
  /\ (closes (ensureSqlConnection w s).2 <= 1)%nat.
Proof.
  destruct (pool_ready s) eqn:Hr.
  { rewrite (ensure_ready w s Hr). cbn. repeat split; lia. }
  rewrite (ensure_not_ready s Hr).
  pose proof (closes_cleared s) as Hcl.
  assert (Hpre : attempts (cleared w s).2 = 0%nat /\ connects (cleared w s).2 = 0%nat
                 /\ sleeps (cleared w s).2 = []).
  { unfold cleared. by destruct (globalSqlPool s). }
  destruct Hpre as (Ha & Hc & Hs).
  destruct (sequence_cases (cleared w s).1)
    as [(p & _ & ->)|[(e1 & p & _ & ->)|[(e1 & e2 & p & _ & ->)|(e1 & e2 & e3 & _ & ->)]]];
    cbn [snd]; unfold waited;
    rewrite attempts_app, connects_app, sleeps_app, closes_app, Ha, Hc, Hs, Hcl;
    read_events; destruct (createSqlConfig (env w) (platform w));
    destruct (globalSqlPool s); repeat split; lia.
Qed.

(** X7. Whatever the state and whatever the driver does, one run of
    [ensureSqlConnection] makes at most three attempts and at most one
    call of [sql.connect] per attempt, waits after every attempt but the
    last and at most 3000 ms in all, enters no handler, and calls [close]
    at most once: exactly when a pool is held whose [connected] flag is
    off. A pool that reports itself connected is never closed. *)
Theorem ensure_work_is_bounded s :
  let tr := (ensureSqlConnection w s).2 in
  (attempts tr <= 3)%nat
  /\ (connects tr <= attempts tr)%nat
  /\ length (sleeps tr) = (attempts tr - 1)%nat
  /\ 0 <= waited tr <= 3000
  /\ runs tr = 0%nat
  /\ closes tr = match globalSqlPool s with
                 | Some _ => if pool_ready s then 0%nat else 1%nat
                 | None => 0%nat
                 end.
Proof.
  destruct (pool_ready s) eqn:Hr.
  { rewrite (ensure_ready w s Hr). cbn. destruct (globalSqlPool s); repeat split; lia. }
  rewrite (ensure_not_ready s Hr).
  pose proof (closes_cleared s) as Hcl.
  assert (Hpre : attempts (cleared w s).2 = 0%nat /\ connects (cleared w s).2 = 0%nat
                 /\ sleeps (cleared w s).2 = [] /\ runs (cleared w s).2 = 0%nat).
  { unfold cleared. by destruct (globalSqlPool s). }
  destruct Hpre as (Ha & Hc & Hs & Hru).
  destruct (sequence_cases (cleared w s).1)
    as [(p & _ & ->)|[(e1 & p & _ & ->)|[(e1 & e2 & p & _ & ->)|(e1 & e2 & e3 & _ & ->)]]];
    cbn [snd]; unfold waited;
    rewrite attempts_app, connects_app, sleeps_app, runs_app, closes_app, Ha, Hc, Hs, Hru, Hcl;
    read_events; destruct (createSqlConfig (env w) (platform w));
    destruct (globalSqlPool s); repeat split; lia.
Qed.

(** After a normal return the pool is ready, so a second run is immediate. *)
Lemma ensure_twice s :
  (ensureSqlConnection w;; ensureSqlConnection w)%M s = ensureSqlConnection w s.
Proof.
  unfold bind. destruct (ensureSqlConnection w s) as [[[[]|e] s1] tr1] eqn:E; [|done].
  rewrite (ensure_ready w s1 (ensure_normal_ready w s s1 tr1 E)).
  by rewrite app_nil_r.
Qed.

(** X8. [ensureSqlConnection] is idempotent: awaiting it twice in a row
    has the result, the state and the events of awaiting it once (if the
    first throws, the second is not reached; if it returns, the second
    finds the pool connected and does nothing). *)
Theorem ensure_is_idempotent s :
  (ensureSqlConnection w;; ensureSqlConnection w)%M s = ensureSqlConnection w s
  /\ forall s1 tr1,
       ensureSqlConnection w s = (Normal tt, s1, tr1) ->
       ensureSqlConnection w s1 = (Normal tt, s1, []).
Proof.
  split; [apply ensure_twice|].
  intros s1 tr1 E. apply ensure_ready. by eapply ensure_normal_ready.
Qed.

Lemma after_failed_attempt_retry s :
  connectionRetryCount (after_failed_attempt w s) = connectionRetryCount s.
Proof. unfold after_failed_attempt. by destruct (createSqlConfig _ _). Qed.

Lemma after_failed_attempt_pools s :
  pools (after_failed_attempt w s) = pools s.
Proof. unfold after_failed_attempt. by destruct (createSqlConfig _ _). Qed.

Lemma after_failed_attempt_calls s :
  attempt_result w (connect_calls (after_failed_attempt w s))
  = attempt_result w (S (connect_calls s)).
Proof. apply attempt_result_next. Qed.

Lemma ensure_throw_inv s e s' tr :
  ensureSqlConnection w s = (Throw e, s', tr) ->
  globalSqlPool s' = None
  /\ exists last,
       attempt_result w (S (S (connect_calls s))) = Throw last
       /\ e = connect_failure (Some last).
Proof.
  intros E. destruct (pool_ready s) eqn:Hr.
  { by rewrite (ensure_ready w s Hr) in E. }
  rewrite (ensure_not_ready s Hr) in E.
  pose proof (cleared_calls s) as Hcalls.
  destruct (sequence_cases (cleared w s).1)
    as [(p & _ & H)|[(e1 & p & _ & H)|[(e1 & e2 & p & _ & H)|(e1 & e2 & e3 & H3 & H)]]];
    rewrite H in E; try discriminate E.
  injection E as <- <- _. rewrite Hcalls in H3. split; [|by exists e3].
  rewrite !after_failed_attempt_pool. apply cleared_absent.
Qed.

(** X9. The only error [ensureSqlConnection] ever throws is the one of
    line 253, from any state: its message is ["Failed to connect after 3
    attempts. Last error: "] followed by the message of the third failed
    attempt (or ['Unknown error'] if that is empty). An error of [close]
    on a stale pool never comes out. After the throw three attempts have
    been made and no pool is held. *)
Theorem ensure_throws_only_connect_failure s e s' tr :
  ensureSqlConnection w s = (Throw e, s', tr) ->
  (exists last,
     attempt_result w (S (S (connect_calls s))) = Throw last
     /\ e = new_Error ("Failed to connect after 3 attempts. Last error: "
                       +:+ or_else (Some (message last)) "Unknown error"))
  /\ attempts tr = 3%nat
  /\ sleeps tr = [1000; 2000]
  /\ globalSqlPool s' = None.
Proof.
  intros E. destruct (pool_ready s) eqn:Hr.
  { by rewrite (ensure_ready w s Hr) in E. }
  rewrite (ensure_not_ready s Hr) in E.
  assert (Hpre : attempts (cleared w s).2 = 0%nat /\ sleeps (cleared w s).2 = []).
  { unfold cleared. by destruct (globalSqlPool s). }
  destruct Hpre as (Ha & Hs).
  pose proof (cleared_absent s) as Hnone. pose proof (cleared_calls s) as Hcalls.
  destruct (sequence_cases (cleared w s).1)
    as [(p & _ & H)|[(e1 & p & _ & H)|[(e1 & e2 & p & _ & H)|(e1 & e2 & e3 & H3 & H)]]];
    rewrite H in E; try discriminate E.
  injection E as <- <- <-. rewrite Hcalls in H3.
  split; [by exists e3|].
  split; [rewrite attempts_app, Ha; read_events;
          by destruct (createSqlConfig (env w) (platform w))|].
  split; [rewrite sleeps_app, Hs; read_events;
          by destruct (createSqlConfig (env w) (platform w))|].
  rewrite !after_failed_attempt_pool. exact Hnone.
Qed.

End Manager.

Lemma ensure_throws_only_connect_failure_witness :
  let '(r, s', tr) := ensureSqlConnection (Demo.world Demo.full_env 10) Demo.stale in
  r = Throw (new_Error "Failed to connect after 3 attempts. Last error: ECONNREFUSED")
  /\ globalSqlPool s' = None.
Proof.
  assert (Hc : (ensureSqlConnection (Demo.world Demo.full_env 10) Demo.stale).1.1
               = Throw (new_Error "Failed to connect after 3 attempts. Last error: ECONNREFUSED"))
    by reflexivity.
  destruct (ensureSqlConnection (Demo.world Demo.full_env 10) Demo.stale)
    as [[r s'] tr] eqn:E.
  cbn [fst] in Hc. subst r. split; [reflexivity|].
  by destruct (ensure_throws_only_connect_failure _ _ _ _ _ E) as (_ & _ & _ & H).
Defined.

(** ** The pool objects and the state that is kept *)

Section Pools.

Context {Value : Type}.
Variable w : World Value.

Lemma listeners_after_connect q s0 p :
  listeners (after_connect q s0) p
  = if decide (p = q) then S (listeners s0 p) else listeners s0 p.
Proof.
  unfold listeners, after_connect; cbn [pools].
  case_decide as Hp.
  - subst. by rewrite lookup_alter_eq, lookup_insert_eq.
  - by rewrite lookup_alter_ne, lookup_insert_ne.
Qed.

(** The state after a run that did not find a connected pool and returned
    normally. *)
Lemma ensure_connected_state s s' tr :
  pool_ready s = false ->
  ensureSqlConnection w s = (Normal tt, s', tr) ->
  exists q s0, s' = after_connect q s0 /\ pools s0 = pools (cleared w s).1.
Proof.
  intros Hr E. rewrite (ensure_not_ready w s Hr) in E.
  destruct (sequence_cases w (cleared w s).1)
    as [(p & _ & H)|[(e1 & p & _ & H)|[(e1 & e2 & p & _ & H)|(e1 & e2 & e3 & _ & H)]]];
    rewrite H in E; try discriminate E; injection E as <- _;
    eexists p, _; (split; [reflexivity|]);
    by rewrite ?after_failed_attempt_pools.
Qed.

(** The state after any run. *)
Lemma ensure_state s :
  (pool_ready s = true /\ (ensureSqlConnection w s).1.2 = s)
  \/ (exists q s0, (ensureSqlConnection w s).1.2 = after_connect q s0)
  \/ (globalSqlPool (ensureSqlConnection w s).1.2 = None
      /\ connectionRetryCount (ensureSqlConnection w s).1.2 = connectionRetryCount s).
Proof.
  destruct (pool_ready s) eqn:Hr.
  { left. by rewrite (ensure_ready w s Hr). }
  right. destruct (ensureSqlConnection w s) as [[[[]|e] s'] tr] eqn:E.
  - left. destruct (ensure_connected_state s s' tr Hr E) as (q & s0 & -> & _).
    by exists q, s0.
  - right. cbn [fst snd].
    rewrite (ensure_not_ready w s Hr) in E.
    destruct (sequence_cases w (cleared w s).1)
      as [(p & _ & H)|[(e1 & p & _ & H)|[(e1 & e2 & p & _ & H)|(e1 & e2 & e3 & _ & H)]]];
      rewrite H in E; try discriminate E. injection E as _ <- _.
    rewrite !after_failed_attempt_pool, !after_failed_attempt_retry.
    split; [apply cleared_absent|apply cleared_retry].
Qed.

(** X10. A run of [ensureSqlConnection] that has to connect and succeeds
    registers exactly one more error listener on the pool it obtains and
    removes none anywhere; that pool is held and connected, the retry
    counter is zero, and every other pool object, but the stale one that
    was held, is left as it was. (So if the driver hands out a pool object
    it handed out before, its listeners pile up.) *)
Theorem connect_registers_one_listener s s' tr :
  pool_ready s = false ->
  ensureSqlConnection w s = (Normal tt, s', tr) ->
  exists q,
    globalSqlPool s' = Some q
    /\ pool_connected s' q = true
    /\ connectionRetryCount s' = 0%nat
    /\ (forall p, listeners s' p = if decide (p = q) then S (listeners s p) else listeners s p)
    /\ (forall p, p <> q -> globalSqlPool s <> Some p -> pools s' !! p = pools s !! p).
Proof.
  intros Hr E.
  destruct (ensure_connected_state s s' tr Hr E) as (q & s0 & -> & Hp).
  exists q. split; [reflexivity|]. split; [apply after_connect_connected|].
  split; [reflexivity|]. split.
  - intros p. rewrite listeners_after_connect.
    assert (Hl : listeners s0 p = listeners s p).
    { unfold listeners at 1. rewrite Hp. apply (cleared_listeners w s p). }
    by rewrite Hl.
  - intros p Hpq Hheld. unfold after_connect; cbn [pools].
    rewrite lookup_alter_ne, lookup_insert_ne, Hp by done.
    unfold cleared, after_close. destruct (globalSqlPool s) as [p0|]; [|done].
    destruct (pool_close w p0); [|done]. cbn [fst pools set_pools set_globalSqlPool].
    apply lookup_alter_ne. congruence.
Qed.

Lemma CallTool_state name args s :
  (CallTool w name args s).1.2 = s
  \/ (CallTool w name args s).1.2 = (ensureSqlConnection w s).1.2.
Proof.
  destruct (select_case w name) as [t|] eqn:Hsel.
  2:{ left. by rewrite (CallTool_unknown w name args s Hsel). }
  destruct (decide (t = DescribeTable /\ tableName_invalid args = true)) as [[-> Hv]|Hv].
  { left. by rewrite (CallTool_tableName w name args s Hsel Hv). }
  right. rewrite (CallTool_run w name t args s Hsel).
  - by destruct (ensureSqlConnection w s) as [[[[]|e] s1] tr1].
  - intros ->. destruct (tableName_invalid args); [|done]. by destruct Hv.
Qed.

Lemma consistent_ensure s : consistent s -> consistent (ensureSqlConnection w s).1.2.
Proof.
  intros [Hc Hl].
  destruct (ensure_state s) as [[_ ->]|[(q & s0 & ->)|[Hn Hrc]]]; [done| |].
  - split; [reflexivity|]. intros p [= <-].
    rewrite listeners_after_connect. case_decide; [lia|done].
  - split; [congruence|]. intros p Hp. congruence.
Qed.

Lemma consistent_step s s' : step w s s' -> consistent s -> consistent s'.
Proof.
  intros Hstep Hs. destruct Hstep as [name args s|p s|p b s].
  - destruct (CallTool_state name args s) as [->| ->]; [done|by apply consistent_ensure].
  - unfold pool_error_event. destruct (error_listeners <$> pools s !! p) as [[|n]|]; try done.
    cbn [fst]. destruct Hs as [Hc _]. split; [done|]. intros q Hq. discriminate Hq.
  - destruct Hs as [Hc Hl]. split; [done|]. intros q Hq.
    specialize (Hl q Hq). unfold listeners in *. cbn [pools set_pools] in *.
    rewrite lookup_alter. case_decide; [subst|done].
    by destruct (pools s !! q).
Qed.

(** X11. In every state the process can reach from its start (by tool
    calls, ['error'] events of pools, and changes of [connected] flags by
    the driver) the retry counter is zero (nothing ever counts with it)
    and the pool that is held, if any, carries an error listener of this
    module, so that an ['error'] event of the held pool always clears the
    reference. *)
Theorem reachable_states_are_consistent s :
  reachable w s ->
  connectionRetryCount s = 0%nat
  /\ (forall p, globalSqlPool s = Some p ->
        (0 < listeners s p)%nat
        /\ globalSqlPool (pool_error_event p s).1 = None).
Proof.
  intros Hreach.
  assert (Hc : consistent s).
  { revert s Hreach. unfold reachable. apply rtc_ind_r.
    - split; [reflexivity|]. intros p Hp. discriminate Hp.
    - intros s1 s2 _ Hstep IH. by eapply consistent_step. }
  destruct Hc as [Hrc Hl]. split; [done|]. intros p Hp.
  specialize (Hl p Hp). split; [done|].
  unfold pool_error_event, listeners in *.
  destruct (pools s !! p) as [o|]; cbn in *; [|lia].
  by destruct (error_listeners o); [lia|].
Qed.

(** X12. The listener of line 231 clears the global whichever pool emits
    the event: when a pool [p] that still carries a listener emits
    ['error'] while another, connected pool [q] is held, the reference to
    [q] is dropped and [q] is neither closed nor changed; the next
    [ensureSqlConnection] connects anew and calls no [close]. *)
Theorem error_of_another_pool_drops_the_held_one s p q :
  globalSqlPool s = Some q -> p <> q ->
  (0 < listeners s p)%nat ->
  let s1 := (pool_error_event p s).1 in
  globalSqlPool s1 = None
  /\ pools s1 = pools s
  /\ closes (ensureSqlConnection w s1).2 = 0%nat
  /\ (1 <= attempts (ensureSqlConnection w s1).2)%nat
  /\ head (ensureSqlConnection w s1).2 = Some (EvAttempt 1).
Proof.
  intros Hq Hpq Hl s1.
  assert (Hs1 : s1 = set_globalSqlPool None s).
  { unfold s1, pool_error_event, listeners in *.
    destruct (pools s !! p) as [o|]; cbn in *; [|lia].
    by destruct (error_listeners o); [lia|]. }
  rewrite Hs1. split; [reflexivity|]. split; [reflexivity|].
  rewrite (ensure_absent w (set_globalSqlPool None s)) by reflexivity.
  destruct (sequence_cases w (set_globalSqlPool None s))
    as [(p0 & _ & ->)|[(e1 & p0 & _ & ->)|[(e1 & e2 & p0 & _ & ->)|(e1 & e2 & e3 & _ & ->)]]];
    cbn [snd]; (split; [|split; [|reflexivity]]); read_events; lia.
Qed.

End Pools.

Lemma connect_registers_one_listener_witness :
  let '(r, s', tr) := ensureSqlConnection (Demo.world Demo.full_env 0) Demo.stale in
  pool_ready Demo.stale = false /\ r = Normal tt
  /\ globalSqlPool s' = Some 7%nat /\ listeners s' 7 = 1%nat /\ listeners s' 4 = 1%nat.
Proof.
  assert (Hc : (ensureSqlConnection (Demo.world Demo.full_env 0) Demo.stale).1.1 = Normal tt)
    by reflexivity.
  destruct (ensureSqlConnection (Demo.world Demo.full_env 0) Demo.stale)
    as [[r s'] tr] eqn:E.
  cbn [fst] in Hc. subst r. split; [reflexivity|]. split; [reflexivity|].
  destruct (connect_registers_one_listener (Demo.world Demo.full_env 0) Demo.stale s' tr
              eq_refl E) as (q & Hq & _ & _ & Hl & _).
  assert (q = 7%nat) as ->.
  { assert (Hs : globalSqlPool (ensureSqlConnection (Demo.world Demo.full_env 0) Demo.stale).1.2
                 = Some 7%nat) by reflexivity.
    rewrite E in Hs. cbn [fst snd] in Hs. congruence. }
  split; [exact Hq|]. split; [by rewrite (Hl 7%nat)|by rewrite (Hl 4%nat)].
Defined.

Lemma reachable_states_are_consistent_witness :
  reachable Fleet.world Fleet.reconnected
  /\ globalSqlPool Fleet.reconnected = Some 1%nat
  /\ (0 < listeners Fleet.reconnected 1)%nat.
Proof.
  assert (Hr : reachable Fleet.world Fleet.reconnected).
  { unfold reachable, Fleet.reconnected.
    eapply rtc_l; [apply (step_call Fleet.world "list_table" None)|].
    eapply rtc_l; [apply (step_driver Fleet.world 0%nat false)|].
    eapply rtc_l; [apply (step_call Fleet.world "list_table" None)|].
    apply rtc_refl. }
  split; [exact Hr|]. split; [reflexivity|].
  destruct (reachable_states_are_consistent Fleet.world Fleet.reconnected Hr) as [_ H].
  by destruct (H 1%nat eq_refl).
Defined.

Lemma error_of_another_pool_drops_the_held_one_witness :
  globalSqlPool Fleet.reconnected = Some 1%nat
  /\ (0 < listeners Fleet.reconnected 0)%nat
  /\ pool_ready Fleet.reconnected = true
  /\ globalSqlPool (pool_error_event 0 Fleet.reconnected).1 = None
  /\ pool_connected (pool_error_event 0 Fleet.reconnected).1 1 = true.
Proof.
  split; [reflexivity|]. split; [vm_compute; lia|]. split; [reflexivity|].
  destruct (error_of_another_pool_drops_the_held_one Fleet.world Fleet.reconnected 0%nat 1%nat)
    as (H1 & H2 & _); [reflexivity|lia|vm_compute; lia|].
  split; [exact H1|]. unfold pool_connected. rewrite H2. reflexivity.
Defined.

(** ** The dispatcher and the patched handlers *)

Section Calls.

Context {Value : Type}.
Variable w : World Value.

(** What a call does, in terms of [ensureSqlConnection]. *)
Lemma CallTool_effect name args s :
  ((CallTool w name args s).2 = []
   /\ (CallTool w name args s).1.2 = s
   /\ isError (CallTool w name args s).1.1 = true)
  \/ (exists t e s1 tr1,
        select_case w name = Some t
        /\ ensureSqlConnection w s = (Throw e, s1, tr1)
        /\ (CallTool w name args s).2 = tr1
        /\ (CallTool w name args s).1.2 = s1
        /\ isError (CallTool w name args s).1.1 = true)
  \/ (exists t s1 tr1,
        select_case w name = Some t
        /\ ensureSqlConnection w s = (Normal tt, s1, tr1)
        /\ (CallTool w name args s).2 = (tr1 ++ [EvRun t args])%list
        /\ (CallTool w name args s).1.2 = s1).
Proof.
  destruct (select_case w name) as [t|] eqn:Hsel.
  2:{ left. by rewrite (CallTool_unknown w name args s Hsel). }
  destruct (decide (t = DescribeTable /\ tableName_invalid args = true)) as [[-> Hv]|Hv].
  { left. by rewrite (CallTool_tableName w name args s Hsel Hv). }
  right. rewrite (CallTool_run w name t args s Hsel).
  2:{ intros ->. destruct (tableName_invalid args); [|done]. by destruct Hv. }
  destruct (ensureSqlConnection w s) as [[[[]|e] s1] tr1] eqn:E.
  - right. by exists t, s1, tr1.
  - left. by exists t, e, s1, tr1.
Qed.

Lemma ensure_runs s : runs (ensureSqlConnection w s).2 = 0%nat.
Proof.
  pose proof (ensure_no_run w s) as H. unfold runs.
  induction H as [|e l He _ IH]; [done|].
  rewrite filter_cons. by destruct e.
Qed.

Lemma ready_trace_is_empty s :
  pool_ready s = true -> forall name args,
  attempts (CallTool w name args s).2 = 0%nat
  /\ connects (CallTool w name args s).2 = 0%nat
  /\ closes (CallTool w name args s).2 = 0%nat
  /\ sleeps (CallTool w name args s).2 = []
  /\ (CallTool w name args s).1.2 = s.
Proof.
  intros Hr name args.
  destruct (CallTool_effect name args s)
    as [(Ht & Hs & _)|[(t & e & s1 & tr1 & _ & E & _)|(t & s1 & tr1 & _ & E & Ht & Hs)]].
  - by rewrite Ht, Hs.
  - rewrite (ensure_ready w s Hr) in E. discriminate E.
  - rewrite (ensure_ready w s Hr) in E. injection E as <- <-.
    by rewrite Ht, Hs.
Qed.

(** X13. The connection is reused from one call to the next: once a call
    has entered a handler (whether the handler then returned or threw),
    the next call, whatever its name and arguments, makes no connection
    attempt, calls neither [sql.connect] nor [close], does not wait, and
    leaves the state as it is. *)
Theorem connection_is_reused name args s :
  runs (CallTool w name args s).2 = 1%nat ->
  let s1 := (CallTool w name args s).1.2 in
  pool_ready s1 = true
  /\ forall name' args',
       attempts (CallTool w name' args' s1).2 = 0%nat
       /\ connects (CallTool w name' args' s1).2 = 0%nat
       /\ closes (CallTool w name' args' s1).2 = 0%nat
       /\ sleeps (CallTool w name' args' s1).2 = []
       /\ (CallTool w name' args' s1).1.2 = s1.
Proof.
  intros Hrun s1.
  assert (Hr : pool_ready s1 = true).
  { unfold s1. pose proof (ensure_runs s) as Hz.
    destruct (CallTool_effect name args s)
      as [(Ht & _)|[(t & e & s2 & tr1 & _ & E & Ht & _)|(t & s2 & tr1 & _ & E & _ & ->)]].
    - rewrite Ht in Hrun. discriminate Hrun.
    - rewrite Ht in Hrun. rewrite E in Hz. cbn [snd] in Hz. congruence.
    - by eapply ensure_normal_ready. }
  split; [done|]. by apply ready_trace_is_empty.
Qed.

(** X14. One call enters at most one handler body, and enters it last;
    it makes at most three connection attempts, at most one [close], and
    waits at most 3000 ms. An answer that is not marked as an error is
    only given when a handler body was entered. *)
Theorem call_work_is_bounded name args s :
  let tr := (CallTool w name args s).2 in
  (runs tr <= 1)%nat
  /\ (runs tr = 1%nat -> exists t, last tr = Some (EvRun t args) /\ select_case w name = Some t)
  /\ (attempts tr <= 3)%nat
  /\ (connects tr <= attempts tr)%nat
  /\ (closes tr <= 1)%nat
  /\ 0 <= waited tr <= 3000
  /\ (isError (CallTool w name args s).1.1 = false -> runs tr = 1%nat).
Proof.
  pose proof (ensure_work_bounds w s) as (Ha & Hc & Hw & Hcl).
  pose proof (ensure_runs s) as Hz.
  destruct (CallTool_effect name args s)
    as [(Ht & _ & He)|[(t & e & s1 & tr1 & _ & E & Ht & _ & He)
                      |(t & s1 & tr1 & Hsel & E & Ht & _)]];
    cbn zeta; rewrite Ht.
  - rewrite He, runs_nil, attempts_nil, connects_nil, closes_nil.
    change (waited []) with 0.
    split_and!; try lia; intros ?; discriminate.
  - rewrite He, E in *. cbn [snd] in *.
    split_and!; try lia; intros ?; exfalso; (lia || discriminate).
  - rewrite E in *. cbn [snd] in *.
    assert (Hsl : sleeps [EvRun t args] = []) by reflexivity.
    unfold waited. rewrite runs_app, attempts_app, connects_app, closes_app, sleeps_app.
    rewrite last_snoc, Hsl, app_nil_r. fold (waited tr1).
    rewrite runs_cons, attempts_cons, connects_cons, closes_cons,
      runs_nil, attempts_nil, connects_nil, closes_nil.
    cbn [is_run is_attempt is_connect is_close].
    split_and!; try lia. intros _. by exists t.
Qed.

End Calls.

Lemma connection_is_reused_witness :
  let s1 := (CallTool (Demo.world Demo.full_env 2) "insert_data" None Demo.fresh).1.2 in
  runs (CallTool (Demo.world Demo.full_env 2) "insert_data" None Demo.fresh).2 = 1%nat
  /\ isError (CallTool (Demo.world Demo.full_env 2) "insert_data" None Demo.fresh).1.1 = true
  /\ attempts (CallTool (Demo.world Demo.full_env 2) "read_data" Demo.insert_args s1).2 = 0%nat.
Proof.
  intros s1. split; [reflexivity|]. split; [reflexivity|].
  destruct (connection_is_reused (Demo.world Demo.full_env 2) "insert_data" None Demo.fresh
              eq_refl) as [_ H].
  by destruct (H "read_data" Demo.insert_args) as (Ha & _).
Defined.

Section Catalog.

Context {Value : Type}.
Variable w : World Value.

(** X15. Read-only mode is on exactly when [READONLY] is the text
    ["true"], letter for letter. The tool list then is the three reading
    tools; otherwise it is all eight tools. In both modes no tool is listed
    twice, and every listed tool can be called: the [switch] has a case for
    its name. *)
Theorem listed_tools (t : Tool) :
  (isReadOnly w = true <-> env w !! "READONLY" = Some "true")
  /\ NoDup (ListTools w)
  /\ (In t (ListTools w) <->
        if isReadOnly w
        then t = ListTable \/ t = ReadData \/ t = DescribeTable
        else True)
  /\ (In t (ListTools w) ->
        exists t', select_case w (tool_name w t) = Some t'
                   /\ tool_name w t' = tool_name w t).
Proof.
  split; [|split; [|split]].
  - unfold isReadOnly. destruct (env w !! "READONLY") as [v|]; [|done].
    rewrite String.eqb_eq. split; congruence.
  - unfold ListTools. destruct (isReadOnly w); repeat constructor;
      rewrite ?list_elem_of_In; cbn; intuition discriminate.
  - unfold ListTools. destruct (isReadOnly w); cbn.
    + intuition.
    + split; [done|]. intros _. destruct t; tauto.
  - intros _. destruct (select_case w (tool_name w t)) as [t'|] eqn:E.
    + exists t'. split; [done|]. symmetry. by apply select_case_sound.
    + exfalso. unfold select_case in E.
      assert (Hin : In t switch_cases) by (destruct t; cbn; tauto).
      pose proof (find_none _ _ E t Hin) as Hf. cbn beta in Hf.
      by rewrite String.eqb_refl in Hf.
Qed.

(** X16. When the eight tool names are pairwise different, a name
    selects a tool exactly when it is that tool's name; the handler body
    that a call enters is then the one of the tool so named. *)
Theorem dispatch_by_name (name : string) (t : Tool) :
  (forall t1 t2, tool_name w t1 = tool_name w t2 -> t1 = t2) ->
  (select_case w name = Some t <-> name = tool_name w t)
  /\ (forall args s t' a,
        name = tool_name w t ->
        In (EvRun t' a) (CallTool w name args s).2 -> t' = t /\ a = args).
Proof.
  intros Hinj.
  assert (Hiff : select_case w name = Some t <-> name = tool_name w t).
  { split; [apply select_case_sound|]. intros ->. by apply select_case_registered. }
  split; [exact Hiff|].
  intros args s t' a Hname Hin. apply Hiff in Hname.
  pose proof (ensure_no_run w s) as Hnr.
  assert (Hnot : forall l, Forall (fun e => is_run e = false) l -> ~ In (EvRun t' a) l).
  { intros l Hl Hi. rewrite Forall_forall in Hl.
    apply list_elem_of_In, Hl in Hi. discriminate. }
  destruct (CallTool_effect w name args s)
    as [(Ht & _)|[(t0 & e & s1 & tr1 & _ & E & Ht & _)|(t0 & s1 & tr1 & Hsel & E & Ht & _)]];
    rewrite Ht in Hin.
  - destruct Hin.
  - rewrite E in Hnr. by destruct (Hnot tr1 Hnr).
  - rewrite E in Hnr. apply in_app_or in Hin as [Hin|[[= <- <-]|[]]].
    + by destruct (Hnot tr1 Hnr).
    + split; [congruence|done].
Qed.

(** X17. The check of line 155 lets [describe_table] through exactly when
    arguments are given and their [tableName] is a JSON string, the empty
    string included; a missing [tableName], [null], a number, a boolean, an
    array or an object is refused. Other fields do not matter. *)
Theorem tableName_accepted (args : option (gmap string json)) :
  tableName_invalid args = false <->
  exists o v, args = Some o /\ o !! "tableName" = Some (JStr v).
Proof.
  unfold tableName_invalid. destruct args as [o|].
  - split.
    + intros H. destruct (o !! "tableName") as [j|] eqn:E; [|discriminate H].
      destruct j as [| | |v| |]; cbn in H; try discriminate H. by exists o, v.
    + intros (o' & v & [= <-] & ->). reflexivity.
  - split; [discriminate|]. by intros (o & v & H & _).
Qed.

(** X18. Patching twice is harmless: applying [wrapToolRun] once more to
    any tool of the patched table changes no [run]: the wrapped tool's
    [run] awaits [ensureSqlConnection] twice, which is the same as once,
    and the other tools' [run] is not touched. *)
Theorem wrapping_again_changes_nothing (tool t : Tool)
    (args : option (gmap string json)) (s : State) :
  wrapToolRun w tool (run w) t args s = run w t args s.
Proof.
  unfold wrapToolRun. case_decide as Ht; [subst t|reflexivity].
  rewrite (run_wrapped w tool args).
  change ((ensureSqlConnection w;; (ensureSqlConnection w;; original_runs w tool args))%M s
          = (ensureSqlConnection w;; original_runs w tool args)%M s).
  unfold bind. cbn beta.
  destruct (ensureSqlConnection w s) as [[[[]|e] s1] tr1] eqn:E; [|reflexivity].
  rewrite (ensure_ready w s1 (ensure_normal_ready w s s1 tr1 E)).
  by destruct (original_runs w tool args s1) as [[r s2] tr2].
Qed.

End Catalog.

Lemma dispatch_by_name_witness :
  (forall t1 t2, Demo.names t1 = Demo.names t2 -> t1 = t2)
  /\ select_case (Demo.world Demo.full_env 0) "drop_table" = Some DropTable.
Proof.
  assert (Hinj : forall t1 t2, Demo.names t1 = Demo.names t2 -> t1 = t2).
  { intros [] []; cbn; intros H; (reflexivity || discriminate H). }
  split; [exact Hinj|].
  by apply (dispatch_by_name (Demo.world Demo.full_env 0) "drop_table" DropTable Hinj).
Defined.

(** ** A call from end to end *)

Section EndToEnd.

Context {Value : Type}.
Variable w : World Value.

(** X19. What the caller sees when the connection cannot be made: a call
    that reaches a tool while [ensureSqlConnection] throws is answered by
    the error envelope whose text is ["Error occurred: Error: Failed to
    connect after 3 attempts. Last error: "] followed by the message of the
    third failed attempt (or ['Unknown error'] if it is empty); no handler
    body is entered and no pool is held afterwards. *)
Theorem connection_failure_as_answered name t args s e s1 tr1 :
  select_case w name = Some t ->
  (t = DescribeTable -> tableName_invalid args = false) ->
  ensureSqlConnection w s = (Throw e, s1, tr1) ->
  exists last,
    attempt_result w (S (S (connect_calls s))) = Throw last
    /\ CallTool w name args s =
       (text_error ("Error occurred: Error: Failed to connect after 3 attempts. Last error: "
                    +:+ or_else (Some (message last)) "Unknown error"),
        s1, tr1)
    /\ runs tr1 = 0%nat
    /\ globalSqlPool s1 = None.
Proof.
  intros Hsel Hv E.
  destruct (ensure_throw_inv w s e s1 tr1 E) as (Hnone & last & Hlast & ->).
  exists last. split; [done|]. split; [|split; [|exact Hnone]].
  - rewrite (CallTool_run w name t args s Hsel Hv), E. reflexivity.
  - pose proof (ensure_runs w s) as Hz. by rewrite E in Hz.
Qed.

(** X20. Recovery within one call: when no pool is held and the driver
    refuses the first two attempts and accepts the third, a call that
    reaches a tool waits 3000 ms in all, makes three attempts, then enters
    the handler body once and answers with the handler's outcome; the pool
    obtained at the third attempt is held. *)
Theorem third_attempt_serves_the_call name t args s e1 e2 p :
  select_case w name = Some t ->
  (t = DescribeTable -> tableName_invalid args = false) ->
  globalSqlPool s = None ->
  attempt_result w (connect_calls s) = Throw e1 ->
  attempt_result w (S (connect_calls s)) = Throw e2 ->
  attempt_result w (S (S (connect_calls s))) = Normal p ->
  let '(envelope, s', tr) := CallTool w name args s in
  attempts tr = 3%nat /\ sleeps tr = [1000; 2000] /\ waited tr = 3000
  /\ runs tr = 1%nat /\ last tr = Some (EvRun t args)
  /\ globalSqlPool s' = Some p /\ pool_ready s' = true
  /\ envelope =
     match original_run w t args with
     | Throw e => text_error ("Error occurred: " +:+ toString e)
     | Normal result =>
         match JSON_stringify w result with
         | Normal txt => text_result txt
         | Throw e => text_error ("Error occurred: " +:+ toString e)
         end
     end.
Proof.
  intros Hsel Hv Hnone H1 H2 H3.
  rewrite (CallTool_run w name t args s Hsel Hv), (ensure_absent w s Hnone).
  rewrite (sequence_third w s e1 e2 p None H1 H2 H3).
  rewrite last_snoc. unfold waited.
  rewrite attempts_app, sleeps_app, runs_app. read_events.
  destruct (createSqlConfig (env w) (platform w)); cbn;
    (split_and!; try done);
    unfold pool_ready; cbn [globalSqlPool after_connect];
    apply after_connect_connected.
Qed.

End EndToEnd.

Lemma connection_failure_as_answered_witness :
  CallTool (Demo.world Demo.full_env 5) "list_table" None Demo.fresh
  = (text_error
       "Error occurred: Error: Failed to connect after 3 attempts. Last error: ECONNREFUSED",
     (ensureSqlConnection (Demo.world Demo.full_env 5) Demo.fresh).1.2,
     (ensureSqlConnection (Demo.world Demo.full_env 5) Demo.fresh).2).
Proof.
  destruct (ensureSqlConnection (Demo.world Demo.full_env 5) Demo.fresh)
    as [[r s1] tr1] eqn:E.
  assert (Hr : (ensureSqlConnection (Demo.world Demo.full_env 5) Demo.fresh).1.1
               = Throw (connect_failure (Some (mkError "ConnectionError" "ECONNREFUSED"))))
    by reflexivity.
  rewrite E in Hr. cbn [fst] in Hr. subst r.
  destruct (connection_failure_as_answered (Demo.world Demo.full_env 5)
              "list_table" ListTable None Demo.fresh
              (connect_failure (Some (mkError "ConnectionError" "ECONNREFUSED")))
              s1 tr1 eq_refl)
    as (last & Hlast & Hcall & _); [discriminate|exact E|].
  assert (last = mkError "ConnectionError" "ECONNREFUSED") as ->.
  { vm_compute in Hlast. by injection Hlast as <-. }
  exact Hcall.
Defined.

Lemma third_attempt_serves_the_call_witness :
  let '(envelope, s', tr) :=
    CallTool (Demo.world Demo.full_env 2) "update_data" Demo.insert_args Demo.fresh in
  waited tr = 3000 /\ globalSqlPool s' = Some 7%nat /\ envelope = text_result (Some "1").
Proof.
  pose proof (third_attempt_serves_the_call (Demo.world Demo.full_env 2)
                "update_data" UpdateData Demo.insert_args Demo.fresh
                (mkError "ConnectionError" "ECONNREFUSED")
                (mkError "ConnectionError" "ECONNREFUSED") 7%nat
                eq_refl) as H.
  destruct (CallTool (Demo.world Demo.full_env 2) "update_data" Demo.insert_args Demo.fresh)
    as [[envelope s'] tr].
  destruct H as (_ & _ & Hw & _ & _ & Hp & _ & He); try reflexivity.
  split; [exact Hw|]. split; [exact Hp|]. exact He.
Defined.

(** ** What the resolver reads *)

(** X21. [createSqlConfig] reads seven variables of the environment and
    nothing else: two environments that agree on [PORT], [SERVER_NAME],
    [DATABASE_NAME], [SQL_USERNAME], [SQL_PASSWORD],
    [TRUST_SERVER_CERTIFICATE] and [CONNECTION_TIMEOUT] give the same
    configuration or the same error (so [READONLY] and [DEBUG] have no part
    in it). *)
Theorem config_reads_seven_variables (env env' : gmap string string) (platform : string) :
  (forall k, In k ["PORT"; "SERVER_NAME"; "DATABASE_NAME"; "SQL_USERNAME";
                   "SQL_PASSWORD"; "TRUST_SERVER_CERTIFICATE"; "CONNECTION_TIMEOUT"] ->
             env' !! k = env !! k) ->
  createSqlConfig env' platform = createSqlConfig env platform.
Proof.
  intros H.
  assert (Hk : forall k, In k ["PORT"; "SERVER_NAME"; "DATABASE_NAME"; "SQL_USERNAME";
                               "SQL_PASSWORD"; "TRUST_SERVER_CERTIFICATE";
                               "CONNECTION_TIMEOUT"] -> env' !! k = env !! k) by exact H.
  unfold createSqlConfig, port_error, sql_config, cfg_port, adjustedTimeout,
    cfg_connectionTimeout, cfg_trustServerCertificate.
  rewrite !Hk by (cbn; tauto). reflexivity.
Qed.

Lemma config_reads_seven_variables_witness :
  createSqlConfig Demo.readonly_env "linux" = createSqlConfig Demo.full_env "linux".
Proof.
  apply (config_reads_seven_variables Demo.full_env Demo.readonly_env "linux").
  intros k Hk. cbn in Hk.
  repeat (destruct Hk as [<-|Hk]; [reflexivity|]). destruct Hk.
Defined.
